(** * redux-orm: the record store (Backend) and the Model class, embedded

    The JavaScript of [src/Backend.js] and of the Model class is embedded
    over an explicit store of mutable objects, because the properties of
    interest speak about references: which object a call returns, which
    objects it rewrites and which it leaves alone.  A computation is a
    function from a world (the object store, the session's queue of updates
    for the model, the session cache) to a value and a world, or to a thrown
    error.

    Conventions of the embedding
    - numbers are integers ([Z]); there is no NaN, so [===] and the
      SameValueZero comparison of [includes] are both Leibniz equality;
    - a plain object is a finite map from property keys to values, and
      enumeration ([forOwn], [for .. in]) follows the order of [map_to_list],
      not insertion order;
    - a read under the name of an option or of a field ([branch.items],
      [entity[idAttribute]], [get_prop]) sees own properties: these names are
      taken not to be names of [Object.prototype].  A read under an
      identifier ([branch[mapName][id]], [get_index]) follows the prototype:
      a key that is no own property and is a name of [Object.prototype]
      reaches the member inherited there, which is a function or the
      prototype itself and is outside the fragment;
    - whatever JavaScript does outside this fragment (string methods,
      object-valued property keys, numeric coercions) is reported as the
      outcome [Unsupported], never silently given a meaning;
    - lodash's [sortByOrder], the application of a function value and the
      [idArr] of a many-to-many accessor are parameters; the helpers of
      utils.js and the queue of Session.js, which are not among the sources,
      are modelled from the specification where they are used. *)

From Stdlib Require Import ZArith.
From stdpp Require Import base strings gmap list pretty.

Local Open Scope string_scope.
Local Open Scope list_scope.
Local Open Scope Z_scope.

(** ** Values and the object store *)

Abbreviation loc := nat (only parsing).

Inductive value :=
| VUndef
| VNull
| VNum (n : Z)
| VStr (s : string)
| VRef (l : loc)
| VFun (f : nat).
Arguments VRef l%_nat_scope.
Arguments VFun f%_nat_scope.

Global Instance value_eq_dec : EqDecision value.
Proof. solve_decision. Defined.

(** Relation descriptors declared in [Model.fields] (fields.js). *)
Inductive field_kind := ManyToMany | ForeignKey | OneToOne.

Global Instance field_kind_eq_dec : EqDecision field_kind.
Proof. solve_decision. Defined.

(** What lives at a location: an array, a plain object, or a Model instance
    as [_initFields] leaves it ([_fields], [_fieldNames] and the accessor
    properties, each remembering the [fieldValue] its getter closes over). *)
Inductive cell :=
| Arr (xs : list value)
| Obj (fs : gmap string value)
| Inst (_fields : value) (_fieldNames : list string) (accessors : gmap string value).

Inductive action_type := CREATE | UPDATE | ORDER | DELETE | OTHER (tag : string).

Global Instance action_type_eq_dec : EqDecision action_type.
Proof. solve_decision. Defined.

Record action := Action { a_type : action_type; a_payload : value }.

(** Calls made on the accessor of a many-to-many field ([this[key].add(...)],
    [this[key].remove(...)]); the accessor itself is defined in fields.js. *)
Inductive rel_call :=
| RelRemove (instance : value) (key : string) (ids : list value)
| RelAdd (instance : value) (key : string) (ids : list value).

Record world := World {
  heap : list cell;
  updates : list action;          (* the session's queue for this model *)
  cache_nextId : value;           (* _sessionCache.nextId *)
  rel_calls : list rel_call;
  accessed : bool                 (* session.markAccessed *)
}.

Inductive error := TypeError | Error (msg : string) | Unsupported.

Inductive result (A : Type) :=
| Ok (a : A)
| Throw (e : error).
Arguments Ok {A} a.
Arguments Throw {A} e.

Definition M (A : Type) : Type := world -> result (A * world).

Definition ret {A} (a : A) : M A := fun w => Ok (a, w).

Definition bind {A B} (m : M A) (k : A -> M B) : M B :=
  fun w => match m w with
           | Ok (a, w') => k a w'
           | Throw e => Throw e
           end.

Definition throw {A} (e : error) : M A := fun _ => Throw e.

Declare Scope js_scope.
Delimit Scope js_scope with js.
Notation "'let!' x ':=' m 'in' k" := (bind m (fun x => k))
  (at level 10, x pattern, m at level 100, k at level 200) : js_scope.
Notation "m ';;;' k" := (bind m (fun _ => k))
  (at level 100, k at level 200, right associativity) : js_scope.
Local Open Scope js_scope.

Definition set_heap (h : list cell) (w : world) : world :=
  World h (updates w) (cache_nextId w) (rel_calls w) (accessed w).

Definition alloc (c : cell) : M value :=
  fun w => Ok (VRef (length (heap w)), set_heap (heap w ++ [c]) w).

Definition write (l : loc) (c : cell) : M unit :=
  fun w => Ok (tt, set_heap (<[l:=c]> (heap w)) w).

Definition deref (l : loc) : M cell :=
  fun w => match heap w !! l with
           | Some c => Ok (c, w)
           | None => Throw Unsupported
           end.

(** ** JavaScript primitives *)

Definition truthy (v : value) : bool :=
  match v with
  | VUndef | VNull => false
  | VNum n => negb (n =? 0)
  | VStr s => negb (bool_decide (s = ""))
  | VRef _ | VFun _ => true
  end.

Definition strict_eq (a b : value) : bool := bool_decide (a = b).

(** [String(v)] for a primitive value used as a property key. *)
Definition key_of (v : value) : option string :=
  match v with
  | VNum n => Some (pretty n)
  | VStr s => Some s
  | VUndef => Some "undefined"
  | VNull => Some "null"
  | VRef _ | VFun _ => None
  end.

Definition to_key (v : value) : M string :=
  match key_of v with
  | Some k => ret k
  | None => throw Unsupported
  end.

(** [v[k]]. *)
Definition get_prop (v : value) (k : string) : M value :=
  match v with
  | VUndef | VNull => throw TypeError
  | VNum _ | VFun _ => ret VUndef
  | VStr _ => throw Unsupported
  | VRef l =>
      let! c := deref l in
      match c with
      | Obj fs => ret (default VUndef (fs !! k))
      | Arr xs => if bool_decide (k = "length")
                  then ret (VNum (Z.of_nat (length xs)))
                  else throw Unsupported
      | Inst _ _ acc => match acc !! k with
                        | Some x => ret x
                        | None => throw Unsupported
                        end
      end
  end.

(** The names every plain object inherits from [Object.prototype]. *)
Definition Object_prototype : list string :=
  ["constructor"; "hasOwnProperty"; "isPrototypeOf"; "propertyIsEnumerable";
   "toLocaleString"; "toString"; "valueOf"; "__proto__";
   "__defineGetter__"; "__defineSetter__"; "__lookupGetter__";
   "__lookupSetter__"].

(** Whether [v] has an own property [k] that a read finds before it turns
    to the prototype. *)
Definition has_own (v : value) (k : string) : M bool :=
  match v with
  | VRef l =>
      let! c := deref l in
      match c with
      | Obj fs => ret (bool_decide (is_Some (fs !! k)))
      | Arr _ => ret (bool_decide (k = "length"))
      | Inst _ _ acc => ret (bool_decide (is_Some (acc !! k)))
      end
  | _ => ret false
  end.

(** [v[id]] with a computed key.  Where [v] has no own property under the
    key the read goes on to the prototype: it finds nothing there, and
    answers as [get_prop] does, unless the key is a name of
    [Object.prototype], whose member is not a value of the fragment. *)
Definition get_index (v : value) (id : value) : M value :=
  match v with
  | VUndef | VNull => throw TypeError
  | _ => let! k := to_key id in
         let! own := has_own v k in
         if negb own && bool_decide (k ∈ Object_prototype)
         then throw Unsupported
         else get_prop v k
  end.

(** [v[k] = x] on a plain object. *)
Definition set_prop (v : value) (k : string) (x : value) : M unit :=
  match v with
  | VUndef | VNull => throw TypeError
  | VRef l =>
      let! c := deref l in
      match c with
      | Obj fs => write l (Obj (<[k:=x]> fs))
      | _ => throw Unsupported
      end
  | _ => throw Unsupported
  end.

Definition set_index (v : value) (id : value) (x : value) : M unit :=
  match v with
  | VUndef | VNull => throw TypeError
  | _ => let! k := to_key id in set_prop v k x
  end.

(** [delete v[k]] on a plain object. *)
Definition delete_prop (v : value) (k : string) : M unit :=
  match v with
  | VUndef | VNull => throw TypeError
  | VRef l =>
      let! c := deref l in
      match c with
      | Obj fs => write l (Obj (delete k fs))
      | _ => throw Unsupported
      end
  | _ => throw Unsupported
  end.

Definition delete_index (v : value) (id : value) : M unit :=
  match v with
  | VUndef | VNull => throw TypeError
  | _ => let! k := to_key id in delete_prop v k
  end.

(** [v.hasOwnProperty(k)]. *)
Definition hasOwnProperty (v : value) (k : string) : M bool :=
  match v with
  | VUndef | VNull => throw TypeError
  | VNum _ | VFun _ => ret false
  | VStr _ => throw Unsupported
  | VRef l =>
      let! c := deref l in
      match c with
      | Obj fs => ret (bool_decide (is_Some (fs !! k)))
      | _ => throw Unsupported
      end
  end.

(** The own enumerable properties of [v], as [Object.assign] and lodash's
    [forOwn] see them: none for undefined, null, numbers and functions. *)
Definition own_props (v : value) : M (gmap string value) :=
  match v with
  | VUndef | VNull | VNum _ | VFun _ => ret ∅
  | VStr _ => throw Unsupported
  | VRef l =>
      let! c := deref l in
      match c with
      | Obj fs => ret fs
      | _ => throw Unsupported
      end
  end.

(** [Object.assign({}, a, b)]: later sources win. *)
Definition assign_new (a b : value) : M value :=
  let! pa := own_props a in
  let! pb := own_props b in
  alloc (Obj (pb ∪ pa)).

(** [Object.assign(target, src)]. *)
Definition assign_to (target src : value) : M unit :=
  match target with
  | VUndef | VNull => throw TypeError
  | VRef l =>
      let! c := deref l in
      match c with
      | Obj fs => let! ps := own_props src in write l (Obj (ps ∪ fs))
      | _ => throw Unsupported
      end
  | _ => throw Unsupported
  end.

(** The elements of an array on which an array method is called.  Calling
    the method on anything that has no such method is a TypeError. *)
Definition arr_elems (v : value) : M (list value) :=
  match v with
  | VStr _ => throw Unsupported
  | VRef l =>
      let! c := deref l in
      match c with
      | Arr xs => ret xs
      | _ => throw TypeError
      end
  | _ => throw TypeError
  end.

Definition arr_write (v : value) (xs : list value) : M unit :=
  match v with
  | VRef l => write l (Arr xs)
  | _ => throw TypeError
  end.

(** [a.push(x)]. *)
Definition push (a x : value) : M unit :=
  let! xs := arr_elems a in arr_write a (xs ++ [x]).

(** [a.concat(x)]: a new array; an array argument is spread. *)
Definition concat (a x : value) : M value :=
  let! xs := arr_elems a in
  match x with
  | VRef l =>
      let! c := deref l in
      match c with
      | Arr ys => alloc (Arr (xs ++ ys))
      | _ => alloc (Arr (xs ++ [x]))
      end
  | _ => alloc (Arr (xs ++ [x]))
  end.

(** [a.includes(x)]. *)
Definition includes (a x : value) : M bool :=
  let! xs := arr_elems a in ret (bool_decide (x ∈ xs)).

Fixpoint index_from (x : value) (xs : list value) (i : Z) : Z :=
  match xs with
  | [] => -1
  | y :: ys => if strict_eq y x then i else index_from x ys (i + 1)
  end.

(** [a.indexOf(x)]. *)
Definition indexOf (a x : value) : M Z :=
  let! xs := arr_elems a in ret (index_from x xs 0).

(** [a.splice(idx, 1)]: a negative start counts from the end. *)
Definition splice1 (a : value) (idx : Z) : M unit :=
  let! xs := arr_elems a in
  let len := Z.of_nat (length xs) in
  let start := if idx <? 0 then Z.max (len + idx) 0 else Z.min idx len in
  arr_write a (take (Z.to_nat start) xs ++ drop (S (Z.to_nat start)) xs).

(** The traversal shared by [forEach], [map], [reduce] and [filter]: the
    length is read once, each element is read when its turn comes (an index
    that has gone by then is skipped), and the callback threads a local state
    [S]: the accumulator of [reduce], a variable the callback closes over. *)
Fixpoint traverse {S : Type} (a : value) (n : nat) (k : nat)
    (body : S -> value -> M S) (s : S) : M S :=
  match n with
  | O => ret s
  | Datatypes.S n' =>
      let! xs := arr_elems a in
      let! s' := match xs !! k with
                 | Some x => body s x
                 | None => ret s
                 end in
      traverse a n' (Datatypes.S k) body s'
  end.

Definition reduce {S : Type} (a : value) (body : S -> value -> M S) (s : S) : M S :=
  let! xs := arr_elems a in traverse a (length xs) 0%nat body s.

Definition forEach (a : value) (body : value -> M unit) : M unit :=
  reduce a (fun _ x => body x) tt.

(** [a.map(cb)], with a local state for the variables [cb] assigns. *)
Definition map_st {S : Type} (a : value) (cb : S -> value -> M (S * value)) (s : S)
    : M (S * value) :=
  let! (s', ys) :=
    reduce a (fun '(s, acc) x => let! (s', y) := cb s x in ret (s', acc ++ [y])) (s, []) in
  let! r := alloc (Arr ys) in
  ret (s', r).

Definition map_arr (a : value) (cb : value -> M value) : M value :=
  let! (_, r) := map_st a (fun _ x => let! y := cb x in ret (tt, y)) tt in ret r.

(** [a.filter(cb)]. *)
Definition filter_arr (a : value) (cb : value -> M bool) : M value :=
  let! ys := reduce a (fun acc x => let! keep := cb x in
                                    ret (if keep : bool then acc ++ [x] else acc)) [] in
  alloc (Arr ys).

Fixpoint mapM {A B : Type} (f : A -> M B) (xs : list A) : M (list B) :=
  match xs with
  | [] => ret []
  | x :: xs' => let! y := f x in let! ys := mapM f xs' in ret (y :: ys)
  end.

(** [a[i]] on an array. *)
Definition arr_get (a : value) (i : nat) : M value :=
  let! xs := arr_elems a in ret (default VUndef (xs !! i)).

(** ** lodash, as far as Backend.js calls it *)

Module Lodash.

(** [find(collection, {[k]: v})] returns the first element that is an object
    whose property [k] is strictly equal to [v] (lodash compares a primitive
    [v] with [===]; an object-valued [v] would be compared structurally). *)
Definition matches_property (k : string) (v : value) (e : value) : M bool :=
  match v with
  | VRef _ | VFun _ => throw Unsupported
  | _ =>
      match e with
      | VRef l =>
          let! c := deref l in
          match c with
          | Obj fs => ret (bool_decide (fs !! k = Some v))
          | Arr _ => ret false
          | Inst _ _ _ => throw Unsupported
          end
      | VStr _ => throw Unsupported
      | _ => ret false
      end
  end.

Fixpoint find_first (p : value -> M bool) (xs : list value) : M value :=
  match xs with
  | [] => ret VUndef
  | x :: xs' => let! b := p x in if b : bool then ret x else find_first p xs'
  end.

Definition find (collection : value) (k : string) (v : value) : M value :=
  let! xs := arr_elems collection in find_first (matches_property k v) xs.

(** [omit(object, props)]: a new object without the keys [String(p)]. *)
Definition omit (object : value) (props : value) : M value :=
  let! fs := own_props object in
  let! ps := arr_elems props in
  let! ks := mapM to_key ps in
  alloc (Obj (filter (fun kv => kv.1 ∉ ks) fs)).

End Lodash.

(** ** utils.js, as far as Backend.js and the Model class call it *)

Module Utils.

(** Modelled from the spec: [objectDiff] of utils.js is not under src/.
    Section 4.1 has [patch] replace a record "only if the result differs from
    the current value" and merge "only the changed entries"; Backend.update
    tests the result for truthiness and passes it to [Object.assign].  So
    [objectDiff(target, source)] is the object of those own properties of
    [source] that [target] does not already hold with a strictly equal value,
    and [null] when there is none.  It reads [target], so an undefined or
    null [target] is a TypeError as soon as [source] has a property. *)
Definition objectDiff (target source : value) : M value :=
  let! src := own_props source in
  if bool_decide (src = ∅) then ret VNull
  else
    match target with
    | VUndef | VNull => throw TypeError
    | _ =>
        let! tgt := own_props target in
        let d := filter (fun kv => tgt !! kv.1 ≠ Some kv.2) src in
        if bool_decide (d = ∅) then ret VNull else alloc (Obj d)
    end.

(** Modelled from the spec: [ListIterator] of utils.js is not under src/.
    Backend.iterator constructs it from a list, a start index and a
    [getValue(list, idx)], "an iterator that loops through the objects in
    branch"; Model.get reads [value] from every [next()], also from the one
    whose [done] is set.  So [next()] yields the value at the current index,
    advances, and sets [done] on the last element; past the end it yields
    [undefined]. *)
Record ListIterator := {
  it_list : value;
  it_idx : nat;
  it_getValue : value -> nat -> M value
}.

Definition default_getValue (list : value) (idx : nat) : M value :=
  arr_get list idx.

(** Modelled from the spec: [ListIterator.next] of utils.js, not under src/;
    see [ListIterator] above. *)
Definition next (it : ListIterator) : M (option (value * bool) * ListIterator) :=
  let! xs := arr_elems (it_list it) in
  let advanced := {| it_list := it_list it; it_idx := S (it_idx it);
                     it_getValue := it_getValue it |} in
  if bool_decide (Z.of_nat (it_idx it) < Z.of_nat (length xs) - 1) then
    let! v := it_getValue it (it_list it) (it_idx it) in
    ret (Some (v, false), advanced)
  else if bool_decide (Z.of_nat (it_idx it) < Z.of_nat (length xs)) then
    let! v := it_getValue it (it_list it) (it_idx it) in
    ret (Some (v, true), advanced)
  else ret (None, it).

(** [xs.every(p)]. *)
Fixpoint every {A : Type} (p : A -> M bool) (xs : list A) : M bool :=
  match xs with
  | [] => ret true
  | x :: xs' => let! ok := p x in if ok : bool then every p xs' else ret false
  end.

(** Modelled from the spec: [match] of utils.js is not under src/.
    Section 4.4: the "pattern form matches when every key in the pattern is
    equal to the corresponding record field". *)
Definition match_ (lookupObj entity : value) : M bool :=
  let! ps := own_props lookupObj in
  every (fun kv => let! x := get_prop entity kv.1 in ret (strict_eq kv.2 x))
        (map_to_list ps).

(** Modelled from the spec: [normalizeEntity] of utils.js is not under src/.
    Section 4.2: a relation value is normalized to an identifier, and
    "accepts either a target identifier or a target Entity Handle"; a handle
    answers with its [getId()], the identifier field of its [_fields]. *)
Definition normalizeEntity (idAttr : string) (entity : value) : M value :=
  match entity with
  | VRef l =>
      let! c := deref l in
      match c with
      | Inst _fields _ _ => get_prop _fields idAttr
      | _ => ret entity
      end
  | _ => ret entity
  end.

(** The object [arrayDiffActions] returns, with its [delete] and [add]. *)
Record diffActions := { da_delete : list value; da_add : list value }.

(** Modelled from the spec: [arrayDiffActions] of utils.js is not under
    src/.  Section 4.2: "compute toAdd = newIds - currentIds, toRemove =
    currentIds - newIds"; Model.prototype.update tests the result for
    truthiness before it reads [delete] and [add], so nothing to do is a
    falsy result. *)
Definition arrayDiffActions (currentIds newIds : list value) : option diffActions :=
  let toAdd := filter (fun x => x ∉ currentIds) newIds in
  let toRemove := filter (fun x => x ∉ newIds) currentIds in
  if bool_decide (toAdd = [] ∧ toRemove = []) then None
  else Some {| da_delete := toRemove; da_add := toAdd |}.

End Utils.

(** ** Backend *)

Record Backend := {
  idAttribute : string;
  indexById : bool;
  ordered : bool;
  arrName : string;
  mapName : string;
  withMutations : bool
}.

Definition defaultOpts : Backend :=
  {| idAttribute := "id"; indexById := true; ordered := true;
     arrName := "items"; mapName := "itemsById"; withMutations := false |}.

Module Backend.
Section Methods.
(** lodash's [sortByOrder(list, iteratees, orders)], returning a new array,
    and the application of a function value to one argument. *)
Variable sortByOrder : value -> value -> value -> M value.
Variable call : nat -> value -> M value.

Variable b : Backend.

(** [accessId(branch, id)]. *)
Definition accessId (branch id : value) : M value :=
  if indexById b then
    let! m := get_prop branch (mapName b) in
    get_index m id
  else
    let! arr := get_prop branch (arrName b) in
    Lodash.find arr (idAttribute b) id.

(** [accessIdList(branch)]. *)
Definition accessIdList (branch : value) : M value :=
  get_prop branch (arrName b).

(** [iterator(branch)]. *)
Definition iterator (branch : value) : M Utils.ListIterator :=
  let! list := get_prop branch (arrName b) in
  if indexById b then
    ret {| Utils.it_list := list; Utils.it_idx := 0;
           Utils.it_getValue := fun list idx =>
             let! m := get_prop branch (mapName b) in
             let! id := arr_get list idx in
             get_index m id |}
  else
    ret {| Utils.it_list := list; Utils.it_idx := 0;
           Utils.it_getValue := Utils.default_getValue |}.

(** [accessList(branch)]. *)
Definition accessList (branch : value) : M value :=
  let! arr := get_prop branch (arrName b) in
  map_arr arr (fun id =>
    let! obj := accessId branch id in
    let! o := alloc (Obj {[ idAttribute b := id ]}) in
    assign_to o obj;;;
    ret o).

(** [getDefaultState()]. *)
Definition getDefaultState : M value :=
  if indexById b then
    let! arr := alloc (Arr []) in
    let! m := alloc (Obj ∅) in
    alloc (Obj (<[mapName b := m]> {[ arrName b := arr ]}))
  else
    let! arr := alloc (Arr []) in
    alloc (Obj {[ arrName b := arr ]}).

(** [order(branch, iteratees, orders)]. *)
Definition order (branch iteratees orders : value) : M value :=
  let! returnBranch := if withMutations b then ret branch else alloc (Obj ∅) in
  if indexById b then
    (if withMutations b then ret tt
     else let! m := get_prop branch (mapName b) in
          set_prop returnBranch (mapName b) m);;;
    let! fullList := accessList branch in
    let! orderedObjects := sortByOrder fullList iteratees orders in
    let! ids := map_arr orderedObjects (fun obj => get_prop obj (idAttribute b)) in
    set_prop returnBranch (arrName b) ids;;;
    ret returnBranch
  else
    let! arr := get_prop branch (arrName b) in
    let! sorted := sortByOrder arr iteratees orders in
    set_prop returnBranch (arrName b) sorted;;;
    ret returnBranch.

(** [insert(branch, entry)]. *)
Definition insert (branch entry : value) : M value :=
  if indexById b then
    let! id := get_prop entry (idAttribute b) in
    if withMutations b then
      let! arr := get_prop branch (arrName b) in
      push arr id;;;
      let! m := get_prop branch (mapName b) in
      set_index m id entry;;;
      ret branch
    else
      let! arr := get_prop branch (arrName b) in
      let! arr' := concat arr id in
      let! m := get_prop branch (mapName b) in
      let! k := to_key id in
      let! single := alloc (Obj {[ k := entry ]}) in
      let! m' := assign_new m single in
      alloc (Obj (<[mapName b := m']> {[ arrName b := arr' ]}))
  else
    if withMutations b then
      let! arr := get_prop branch (arrName b) in
      push arr entry;;;
      ret branch
    else
      let! arr := get_prop branch (arrName b) in
      let! arr' := concat arr entry in
      alloc (Obj {[ arrName b := arr' ]}).

(** The [mapFunction] of [update]: the patcher itself when it is a function,
    the merge of the patch otherwise. *)
Definition mapFunction (patcher : value) (entity : value) : M value :=
  match patcher with
  | VFun f => call f entity
  | _ =>
      let! diff := Utils.objectDiff entity patcher in
      if truthy diff then assign_new entity patcher
      else ret entity
  end.

(** [update(branch, idArr, patcher)]. *)
Definition update (branch idArr patcher : value) : M value :=
  let! returnBranch := if withMutations b then ret branch else alloc (Obj ∅) in
  if indexById b then
    (if withMutations b then ret tt
     else
       let! m := get_prop branch (mapName b) in
       let! copy := assign_new m VUndef in
       set_prop returnBranch (mapName b) copy;;;
       let! arr := get_prop branch (arrName b) in
       set_prop returnBranch (arrName b) arr);;;
    let! updatedMap := alloc (Obj ∅) in
    reduce idArr (fun map id =>
      let! m := get_prop branch (mapName b) in
      let! old := get_index m id in
      let! result := mapFunction patcher old in
      let! m := get_prop branch (mapName b) in
      let! old := get_index m id in
      (if strict_eq result old then ret tt else set_index map id result);;;
      ret map) updatedMap;;;
    let! rm := get_prop returnBranch (mapName b) in
    let! diff := Utils.objectDiff rm updatedMap in
    if truthy diff then
      let! rm := get_prop returnBranch (mapName b) in
      assign_to rm diff;;;
      ret returnBranch
    else ret branch
  else
    let! arr := get_prop branch (arrName b) in
    let! (updated, arr') :=
      map_st arr (fun updated entity =>
        let! eid := get_prop entity (idAttribute b) in
        let! inc := includes idArr eid in
        if inc : bool then
          let! result := mapFunction patcher entity in
          let updated := if strict_eq entity result then updated else true in
          let! r := mapFunction patcher entity in
          ret (updated, r)
        else ret (updated, entity)) false in
    set_prop returnBranch (arrName b) arr';;;
    ret (if updated : bool then returnBranch else branch).

(** [delete(branch, idsToDelete)]. *)
Definition delete (branch idsToDelete : value) : M value :=
  let! arr := get_prop branch (arrName b) in
  if indexById b then
    if withMutations b then
      forEach idsToDelete (fun id =>
        let! idx := indexOf arr id in
        (if bool_decide (idx ≠ -1) then splice1 arr idx else ret tt);;;
        let! m := get_prop branch (mapName b) in
        delete_index m id);;;
      ret branch
    else
      let! a := get_prop branch (arrName b) in
      let! arr' := filter_arr a (fun id =>
                     let! inc := includes idsToDelete id in ret (negb inc)) in
      let! m := get_prop branch (mapName b) in
      let! m' := Lodash.omit m idsToDelete in
      alloc (Obj (<[mapName b := m']> {[ arrName b := arr' ]}))
  else
    if withMutations b then
      forEach idsToDelete (fun id =>
        let! idx := indexOf arr id in
        if bool_decide (idx = -1) then splice1 arr idx else ret tt);;;
      ret branch
    else
      let! arr' := filter_arr arr (fun entity =>
                     let! eid := get_prop entity (idAttribute b) in
                     let! inc := includes idsToDelete eid in ret (negb inc)) in
      alloc (Obj {[ arrName b := arr' ]}).

End Methods.
End Backend.

(** ** The Model class

    One Model class connected to one session: [state] is what
    [session.getState(modelName)] returns, [backend] the Backend instance of
    [getBackend()], and the session's queue for this model, the session cache
    and [markAccessed] live in the [world]. *)

Record ModelClass := {
  modelName : string;
  backend : Backend;
  state : value;
  fields : gmap string field_kind;
  definedProperties : gset string
}.

Fixpoint foldM {S A : Type} (f : S -> A -> M S) (xs : list A) (s : S) : M S :=
  match xs with
  | [] => ret s
  | x :: xs' => let! s' := f s x in foldM f xs' s'
  end.

Module Model.
Section Methods.
Variable sortByOrder : value -> value -> value -> M value.
Variable call : nat -> value -> M value.
(** [this[key].idArr] for a many-to-many field [key] of an instance: the
    identifiers currently related (the accessor is defined in fields.js). *)
Variable relatedIdArr : value -> string -> M value.

Variable cls : ModelClass.

(** [this.session.markAccessed(this)].  Session.js is not under src/; all
    that is kept of the call is that it was made. *)
Definition markAccessed : M unit :=
  fun w => Ok (tt, World (heap w) (updates w) (cache_nextId w) (rel_calls w) true).

Definition get_cache_nextId : M value := fun w => Ok (cache_nextId w, w).

Definition set_cache_nextId (v : value) : M unit :=
  fun w => Ok (tt, World (heap w) (updates w) v (rel_calls w) (accessed w)).

Definition record_call (c : rel_call) : M unit :=
  fun w => Ok (tt, World (heap w) (updates w) (cache_nextId w) (rel_calls w ++ [c]) (accessed w)).

(** Modelled from the spec: [session.getUpdatesFor(this)] of Session.js,
    not under src/.  Section 4.3: "each store maintains an ordered sequence of
    pending actions", to which the enqueue operations append; this is that
    sequence, in order. *)
Definition getUpdatesFor : M (list action) := fun w => Ok (updates w, w).

Definition idAttr : string := idAttribute (backend cls).

(** [static getDefaultState()]. *)
Definition getDefaultState : M value := Backend.getDefaultState (backend cls).

(** [static updateReducer(state, action)]. *)
Definition updateReducer (state : value) (action : action) : M value :=
  match a_type action with
  | CREATE => Backend.insert (backend cls) state (a_payload action)
  | UPDATE =>
      let! idArr := get_prop (a_payload action) "idArr" in
      let! updater := get_prop (a_payload action) "updater" in
      Backend.update call (backend cls) state idArr updater
  | ORDER => Backend.order sortByOrder (backend cls) state (a_payload action) VUndef
  | DELETE => Backend.delete (backend cls) state (a_payload action)
  | OTHER _ => ret state
  end.

(** [static getNextState()]. *)
Definition getNextState : M value :=
  if bool_decide (state cls = VUndef) then getDefaultState
  else
    let! updates := getUpdatesFor in
    foldM updateReducer updates (state cls).

(** [static accessId(id)], [accessIds()] and [iterator()]. *)
Definition accessId (id : value) : M value :=
  markAccessed;;;
  Backend.accessId (backend cls) (state cls) id.

Definition accessIds : M value :=
  markAccessed;;;
  Backend.accessIdList (backend cls) (state cls).

Definition iterator : M Utils.ListIterator :=
  markAccessed;;;
  Backend.iterator (backend cls) (state cls).

(** Modelled from the spec: [static addUpdate(update)] tags the update with
    the model's name and hands it to [session.addUpdate] of Session.js, not
    under src/.  Section 4.3: enqueue operations "append to this sequence";
    the tag is implicit, the queue of the [world] being this model's. *)
Definition addUpdate (update : action) : M unit :=
  fun w => Ok (tt, World (heap w) (updates w ++ [update]) (cache_nextId w)
                         (rel_calls w) (accessed w)).

Fixpoint max_from (xs : list value) (acc : Z) : M Z :=
  match xs with
  | [] => ret acc
  | VNum n :: xs' => max_from xs' (Z.max acc n)
  | _ => throw Unsupported
  end.

(** [Math.max(...idArr)] on a non-empty array of numbers. *)
Definition Math_max (idArr : value) : M Z :=
  let! xs := arr_elems idArr in
  match xs with
  | VNum n :: xs' => max_from xs' n
  | _ => throw Unsupported
  end.

(** [v + 1] and [v++] on numbers. *)
Definition plus_one (v : value) : M value :=
  match v with
  | VNum n => ret (VNum (n + 1))
  | _ => throw Unsupported
  end.

(** [a > b] on numbers. *)
Definition greater (a c : value) : M bool :=
  match a, c with
  | VNum x, VNum y => ret (y <? x)
  | _, _ => throw Unsupported
  end.

(** [static nextId()]. *)
Definition nextId : M value :=
  let! cached := get_cache_nextId in
  (if bool_decide (cached = VUndef) then
     let! idArr := accessIds in
     let! len := get_prop idArr "length" in
     if strict_eq len (VNum 0) then set_cache_nextId (VNum 0)
     else
       let! m := Math_max idArr in
       set_cache_nextId (VNum (m + 1))
   else ret tt);;;
  get_cache_nextId.

(** [new ModelClass(props)], that is [_initFields(props)]. *)
Definition new_instance (props : value) : M value :=
  let! ps := own_props props in
  let! (names, acc) :=
    foldM (fun '(names, acc) '(fieldName, fieldValue) =>
             set_prop props fieldName fieldValue;;;
             ret (names ++ [fieldName],
                  if bool_decide (fieldName ∈ definedProperties cls) then acc
                  else <[fieldName := fieldValue]> acc))
          (map_to_list ps) ([], ∅) in
  alloc (Inst props names acc).

(** lodash's [isArray(v)]. *)
Definition isArray (v : value) : M bool :=
  match v with
  | VRef l => let! c := deref l in
              ret (match c with Arr _ => true | _ => false end)
  | _ => ret false
  end.

(** [static create(userProps)].  The [add] on the accessor of a many-to-many
    field is recorded as a call. *)
Definition create (userProps : value) : M value :=
  let! props := assign_new userProps VUndef in
  let! has := hasOwnProperty props idAttr in
  (if negb has then
     let! n := nextId in
     set_prop props idAttr n;;;
     let! cached := get_cache_nextId in
     let! bumped := plus_one cached in
     set_cache_nextId bumped
   else
     let! id := get_prop props idAttr in
     let! n := nextId in
     let! gt := greater id n in
     if gt : bool then
       let! id1 := plus_one id in set_cache_nextId id1
     else ret tt);;;
  let! m2mVals := alloc (Obj ∅) in
  let! ups := own_props userProps in
  foldM (fun _ '(key, value) =>
           let! nv := Utils.normalizeEntity idAttr value in
           set_prop props key nv;;;
           let! isArr := isArray value in
           if isArr && bool_decide (fields cls !! key = Some ManyToMany) then
             set_prop m2mVals key value;;;
             delete_prop props key
           else ret tt)
        (map_to_list ups) tt;;;
  addUpdate (Action CREATE props);;;
  let! instance := new_instance props in
  let! ms := own_props m2mVals in
  foldM (fun _ '(key, value) =>
           let! ids := map_arr value (Utils.normalizeEntity idAttr) in
           let! xs := arr_elems ids in
           record_call (RelAdd instance key xs))
        (map_to_list ms) tt;;;
  ret instance.

(** [static withId(id)]. *)
Definition withId (id : value) : M value :=
  let! props := accessId id in
  new_instance props.

Definition not_found : error :=
  Error "Model instance not found when calling get method".

Definition no_entities : error :=
  Error ("No entities found for model " +:+ modelName cls).

(** The [while (!done)] loop of [get]; [fuel] bounds the number of turns
    and is not exhausted when it exceeds the length of the list, whose last
    element comes with [done]. *)
Fixpoint get_loop (fuel : nat) (lookupObj : value) (it : Utils.ListIterator) : M value :=
  match fuel with
  | O => throw Unsupported
  | S fuel' =>
      let! (curr, it') := Utils.next it in
      match curr with
      | None => throw TypeError
      | Some (v, done) =>
          let! found := Utils.match_ lookupObj v in
          if found : bool then new_instance v
          else if done : bool then throw not_found
          else get_loop fuel' lookupObj it'
      end
  end.

(** [static get(lookupObj)]. *)
Definition get (lookupObj : value) : M value :=
  let! ids := accessIds in
  let! len := get_prop ids "length" in
  if negb (truthy len) then throw no_entities
  else
    let! has := hasOwnProperty lookupObj idAttr in
    if has : bool then
      let! id := get_prop lookupObj idAttr in
      let! props := accessId id in
      if bool_decide (props ≠ VUndef) then new_instance props
      else throw not_found
    else
      let! it := iterator in
      get_loop (match len with VNum n => S (Z.to_nat n) | _ => 1%nat end) lookupObj it.

(** *** Instances *)

(** [getId()]. *)
Definition getId (this : value) : M value :=
  match this with
  | VRef l =>
      let! c := deref l in
      match c with
      | Inst _fields _ _ => get_prop _fields idAttr
      | _ => throw Unsupported
      end
  | _ => throw TypeError
  end.

(** [this[fieldName]]: the getter of an accessor defined by [_initFields]
    returns the [fieldValue] it closed over. *)
Definition get_field (this : value) (fieldName : string) : M value :=
  get_prop this fieldName.

(** [this[fieldName] = value] through the setter of such an accessor. *)
Definition set_field (this : value) (fieldName : string) (value : value) : M unit :=
  match this with
  | VRef l =>
      let! c := deref l in
      match c with
      | Inst _ _ acc =>
          if bool_decide (is_Some (acc !! fieldName)) then
            let! id := getId this in
            let! payload := alloc (Obj (<[fieldName := value]> {[ idAttr := id ]})) in
            addUpdate (Action UPDATE payload)
          else throw Unsupported
      | _ => throw Unsupported
      end
  | _ => throw Unsupported
  end.

(** The many-to-many arm of [update], for one [mergeKey]. *)
Definition reconcile (this : value) (mergeKey : string) (currentIds normalizedNewIds : list value)
    : M unit :=
  match Utils.arrayDiffActions currentIds normalizedNewIds with
  | Some diffActions =>
      let idsToDelete := Utils.da_delete diffActions in
      let idsToAdd := Utils.da_add diffActions in
      (if bool_decide (0 < length idsToDelete)%nat
       then record_call (RelRemove this mergeKey idsToDelete) else ret tt);;;
      (if bool_decide (0 < length idsToAdd)%nat
       then record_call (RelAdd this mergeKey idsToAdd) else ret tt)
  | None => ret tt
  end.

(** [update(userMergeObj)]. *)
Definition update (this : value) (userMergeObj : value) : M unit :=
  let relFields := fields cls in
  let! mergeObj := assign_new userMergeObj VUndef in
  let! keys := own_props mergeObj in
  foldM (fun _ mergeKey =>
           match relFields !! mergeKey with
           | Some ManyToMany =>
               let! idArr := relatedIdArr this mergeKey in
               let! currentIds := arr_elems idArr in
               let! newIds := get_prop mergeObj mergeKey in
               let! normalized := map_arr newIds (Utils.normalizeEntity idAttr) in
               let! normalizedNewIds := arr_elems normalized in
               reconcile this mergeKey currentIds normalizedNewIds;;;
               delete_prop mergeObj mergeKey
           | Some _ =>
               let! v := get_prop mergeObj mergeKey in
               let! nv := Utils.normalizeEntity idAttr v in
               set_prop mergeObj mergeKey nv
           | None => ret tt
           end)
        (map_to_list keys).*1 tt;;;
  let! id := getId this in
  let! idArr := alloc (Arr [id]) in
  let! payload := alloc (Obj (<["updater" := mergeObj]> {[ "idArr" := idArr ]})) in
  addUpdate (Action UPDATE payload).

(** [set(propertyName, value)]. *)
Definition set (this : value) (propertyName : string) (value : value) : M unit :=
  let! o := alloc (Obj {[ propertyName := value ]}) in
  update this o.

End Methods.
End Model.


(** * Specifications: outcomes of runs, stores, concrete scenarios *)

(** [wp m Q E w]: run from [w], [m] either returns a value and a world that
    satisfy [Q], or throws an error that satisfies [E]. *)
Definition wp {A} (m : M A) (Q : A -> world -> Prop) (E : error -> Prop) (w : world) : Prop :=
  match m w with
  | Ok (a, w') => Q a w'
  | Throw e => E e
  end.

Definition no_error : error -> Prop := fun _ => False.

(** The cells of [h] are still there, unchanged, in [h']. *)
Definition preserved (h h' : list cell) : Prop :=
  forall l c, h !! l = Some c -> h' !! l = Some c.

Definition value_of {A} (r : result (A * world)) : result A :=
  match r with
  | Ok (a, _) => Ok a
  | Throw e => Throw e
  end.

Definition empty_world (h : list cell) : world := World h [] VUndef [] false.

Definition book_class (b : Backend) (st : value) : ModelClass :=
  {| modelName := "Book"; backend := b; state := st;
     fields := ∅; definedProperties := ∅ |}.

(** The default backend and the state [{items: [], itemsById: {}}] at
    location 2. *)
Definition default_state_heap : list cell :=
  [Arr []; Obj ∅; Obj (<["itemsById" := VRef 1]> {["items" := VRef 0]})].

Definition record_A : gmap string value := <["name" := VStr "A"]> {["id" := VNum 0]}.

Definition record_B : gmap string value := <["name" := VStr "B"]> {["id" := VNum 1]}.

(** The kind of every queued action, with the property [k] of its payload. *)
Definition queued (k : string) : M (list (action_type * value)) :=
  fun w => mapM (fun a => let! v := get_prop (a_payload a) k in ret (a_type a, v))
                (updates w) w.

(** [Book.create({id: 0, name: "A"}); Book.create({name: "B"})] on the empty
    default state, then the identifiers of the two instances and the queue. *)
Definition create_explicit_then_auto : M (value * value * list (action_type * value)) :=
  let cls := book_class defaultOpts (VRef 2) in
  let! p1 := alloc (Obj record_A) in
  let! i1 := Model.create cls p1 in
  let! p2 := alloc (Obj {["name" := VStr "B"]}) in
  let! i2 := Model.create cls p2 in
  let! id1 := Model.getId cls i1 in
  let! id2 := Model.getId cls i2 in
  let! q := queued "id" in
  ret (id1, id2, q).

Definition indexed_backend (mutate : bool) : Backend :=
  {| idAttribute := "id"; indexById := true; ordered := true;
     arrName := "items"; mapName := "itemsById"; withMutations := mutate |}.

Definition flat_backend (mutate : bool) : Backend :=
  {| idAttribute := "id"; indexById := false; ordered := true;
     arrName := "items"; mapName := "itemsById"; withMutations := mutate |}.

(** The flat state [{items: [{id: 0, name: "A"}, {id: 1, name: "B"}]}] at
    location 3 and the array [[0]] at location 4. *)
Definition flat_state_heap : list cell :=
  [Obj record_A; Obj record_B; Arr [VRef 0; VRef 1]; Obj {["items" := VRef 2]};
   Arr [VNum 0]].

(** [delete(state, ids)], then what is stored under 0 and under 1 and the
    order sequence of the returned state. *)
Definition delete_then_look (b : Backend) (state ids : value)
    : M (value * value * value * list value) :=
  let! st := Backend.delete b state ids in
  let! r0 := Backend.accessId b st (VNum 0) in
  let! r1 := Backend.accessId b st (VNum 1) in
  let! arr := Backend.accessIdList b st in
  let! items := arr_elems arr in
  ret (st, r0, r1, items).

(** The indexed state [{items: [0], itemsById: {0: {id: 0, name: "A"}}}] at
    location 2. *)
Definition one_book_heap : list cell :=
  [Arr [VNum 0]; Obj {["0" := VRef 3]};
   Obj (<["itemsById" := VRef 1]> {["items" := VRef 0]}); Obj record_A].

Section Assignment.
Variable sortByOrder : value -> value -> value -> M value.
Variable call : nat -> value -> M value.
Variable relatedIdArr : value -> string -> M value.

(** [book = Book.withId(0); book.name = "B"], then [book.name] and the
    queue. *)
Definition assign_then_read : M (value * value * list (action_type * value)) :=
  let cls := book_class defaultOpts (VRef 2) in
  let! book := Model.withId cls (VNum 0) in
  Model.set_field cls book "name" (VStr "B");;;
  let! name := Model.get_field book "name" in
  let! q := queued "name" in
  ret (book, name, q).

(** The same, followed by [Book.getNextState()]. *)
Definition assign_then_fold : M value :=
  assign_then_read;;;
  Model.getNextState sortByOrder call (book_class defaultOpts (VRef 2)).

(** [book.set("name", "B")] instead of the assignment, then the fold and
    the name stored under 0 in the state it returns. *)
Definition set_then_fold : M value :=
  let cls := book_class defaultOpts (VRef 2) in
  let! book := Model.withId cls (VNum 0) in
  Model.set relatedIdArr cls book "name" (VStr "B");;;
  let! st := Model.getNextState sortByOrder call cls in
  let! r := Backend.accessId defaultOpts st (VNum 0) in
  get_prop r "name".

End Assignment.

(** ** Shapes of stores *)

(** [branch] is a state object whose order sequence is the array at [la],
    holding [xs]: identifiers in the indexed form, records in the flat one. *)
Definition order_sequence (b : Backend) (h : list cell) (branch : value)
    (la : loc) (xs : list value) : Prop :=
  ∃ lb fs, branch = VRef lb ∧ h !! lb = Some (Obj fs) ∧
           fs !! arrName b = Some (VRef la) ∧ h !! la = Some (Arr xs).

(** [branch] is a state object whose index map is the object at [lm],
    holding [m]. *)
Definition index_map (b : Backend) (h : list cell) (branch : value)
    (lm : loc) (m : gmap string value) : Prop :=
  ∃ lb fs, branch = VRef lb ∧ h !! lb = Some (Obj fs) ∧
           fs !! mapName b = Some (VRef lm) ∧ h !! lm = Some (Obj m).

(** [v] refers to a plain object with the fields [rec]. *)
Definition is_record (h : list cell) (v : value) (rec : gmap string value) : Prop :=
  ∃ l, v = VRef l ∧ h !! l = Some (Obj rec).

(** The primitive identifier [id] is not in the state: the index map has no
    entry under its key, or, in the flat form, no record of the items array
    carries it in its identifier field. *)
Definition id_absent (b : Backend) (h : list cell) (branch : value) (id : value) : Prop :=
  if indexById b then
    ∃ lm m k, index_map b h branch lm m ∧ key_of id = Some k ∧ m !! k = None
  else
    is_Some (key_of id) ∧
    ∃ la items, order_sequence b h branch la items ∧
      Forall (fun e => ∃ rec, is_record h e rec ∧ rec !! idAttribute b ≠ Some id) items.

(** The key of [id] names no member of [Object.prototype]: a read of the
    index map under it that finds no own property finds nothing. *)
Definition plain_key (id : value) : Prop :=
  ∀ k, key_of id = Some k → k ∉ Object_prototype.

(** The world after [markAccessed]. *)
Definition mark (w : world) : world :=
  World (heap w) (updates w) (cache_nextId w) (rel_calls w) true.

(** What [_initFields] computes from the enumerated properties: the field
    names and the accessors, each with the value its getter returns. *)
Definition init_fields (defined : gset string) (ps : list (string * value))
    : list string * gmap string value :=
  foldl (fun '(names, acc) '(fieldName, fieldValue) =>
           (names ++ [fieldName],
            if bool_decide (fieldName ∈ defined) then acc
            else <[fieldName := fieldValue]> acc))
        ([], ∅) ps.

(** An absent indicator, as a caller of [withId] could test for it. *)
Definition absent_indicator (v : value) : Prop := v = VUndef ∨ v = VNull.

(** The statement that [withId(id)] signals an absent identifier. *)
Definition withId_signals_absence (cls : ModelClass) (id : value) (w : world) : Prop :=
  match Model.withId cls id w with
  | Ok (v, _) => absent_indicator v
  | Throw _ => True
  end.

(** A lookup pattern matches a record when every key of the pattern is
    strictly equal to the field of the record under that key. *)
Definition matches (lk rec : gmap string value) : Prop :=
  map_Forall (fun k v => v = default VUndef (rec !! k)) lk.

(** The values the iterator of [branch] goes through, in order: the records
    the index map holds under the identifiers of the order sequence, or, in
    the flat form, the items themselves. *)
Definition iterates (b : Backend) (h : list cell) (branch : value) (es : list value) : Prop :=
  ∃ la xs, order_sequence b h branch la xs ∧
    if indexById b then
      ∃ lm m, index_map b h branch lm m ∧
        Forall2 (fun id e => ∃ k, key_of id = Some k ∧ e = default VUndef (m !! k)) xs es
    else es = xs.

(** The instance [new ModelClass(props)] leaves in the store for a record
    [rec] at [props]. *)
Definition instance_of (cls : ModelClass) (props : value) (rec : gmap string value) : cell :=
  let '(names, acc) := init_fields (definedProperties cls) (map_to_list rec) in
  Inst props names acc.

(** The statement that [get(lookupObj)] raises an error, and not the one it
    raises when nothing matches. *)
Definition get_rejects_ambiguity (cls : ModelClass) (lookupObj : value) (w : world) : Prop :=
  match Model.get cls lookupObj w with
  | Ok _ => False
  | Throw e => e ≠ Model.not_found
  end.

(** The indexed state [{items: [0, 1], itemsById: {0: {id: 0, name: "A"},
    1: {id: 1, name: "A"}}}] at location 2, and the patterns [{name: "A"}],
    [{name: "Z"}] and [{id: 1, name: "Z"}] at locations 5, 6 and 7. *)
Definition same_name_heap : list cell :=
  [Arr [VNum 0; VNum 1]; Obj (<["1" := VRef 4]> {["0" := VRef 3]});
   Obj (<["itemsById" := VRef 1]> {["items" := VRef 0]});
   Obj record_A; Obj (<["name" := VStr "A"]> {["id" := VNum 1]});
   Obj {["name" := VStr "A"]}; Obj {["name" := VStr "Z"]};
   Obj (<["name" := VStr "Z"]> {["id" := VNum 1]})].

(** [e] is a record that the pattern [lk] does not match. *)
Definition unmatched (h : list cell) (lk : gmap string value) (e : value) : Prop :=
  ∃ l rec, e = VRef l ∧ h !! l = Some (Obj rec) ∧ ¬ matches lk rec.

(** ** Many-to-many reconciliation *)

(** Modelled from the spec: [add] and [remove] of a many-to-many accessor
    are defined in fields.js, which is not under src/.  Section 4.2: they
    enqueue "CREATE/DELETE actions against the auxiliary store for the rows
    that must be added/removed"; on the identifiers related to the instance,
    [remove] takes its arguments away and [add] adds its arguments. *)
Definition apply_rel_call (related : list value) (c : rel_call) : list value :=
  match c with
  | RelRemove _ _ ids => filter (fun x => x ∉ ids) related
  | RelAdd _ _ ids => related ++ ids
  end.

Definition set_rel_calls (cs : list rel_call) (w : world) : world :=
  World (heap w) (updates w) (cache_nextId w) cs (accessed w).

Definition author_class : ModelClass :=
  {| modelName := "Book"; backend := defaultOpts; state := VRef 2;
     fields := {["authors" := ManyToMany]}; definedProperties := {["authors"]} |}.

(** The one-book store, an instance of the book at location 4, the array
    [[2, 3, 4]] at location 5 and the merge object [{authors: [2, 3, 4]}] at
    location 6. *)
Definition replacement_heap : list cell :=
  one_book_heap ++
  [Inst (VRef 3) ["id"; "name"] record_A;
   Arr [VNum 2; VNum 3; VNum 4];
   Obj {["authors" := VRef 5]}].

(** [book.update({authors: [2, 3, 4]})] when [book.authors.idArr] is
    [[1, 2, 3]]: the calls recorded on the accessor and the kinds of the
    actions queued for the book's own store. *)
Definition replace_authors : M (list rel_call * list action_type) :=
  Model.update (fun _ _ => alloc (Arr [VNum 1; VNum 2; VNum 3])) author_class
    (VRef 4) (VRef 6);;;
  fun w => Ok ((rel_calls w, a_type <$> updates w), w).

(** ** Computing the next state *)

(** [m] reads and writes the object store only: run from any world, it does
    what it does from the world that has the same store and nothing else, and
    it leaves the queue, the session cache and the rest as they were. *)
Definition store_only {A} (m : M A) : Prop :=
  forall w, m w = match m (empty_world (heap w)) with
                  | Ok (a, w') => Ok (a, set_heap (heap w') w)
                  | Throw e => Throw e
                  end.

Definition set_updates (q : list action) (w : world) : world :=
  World (heap w) q (cache_nextId w) (rel_calls w) (accessed w).

(** The cells [getDefaultState] allocates, for a store of [n] cells. *)
Definition default_cells (b : Backend) (n : nat) : list cell :=
  if indexById b then
    [Arr []; Obj ∅; Obj (<[mapName b := VRef (S n)]> {[ arrName b := VRef n ]})]
  else
    [Arr []; Obj {[ arrName b := VRef n ]}].

(** A [sortByOrder] that leaves the order alone and a [call] that returns its
    argument, to run the code on concrete stores. *)
Definition keep_order : value -> value -> value -> M value := fun l _ _ => ret l.
Definition identity_call : nat -> value -> M value := fun _ v => ret v.

(** ** Patching records *)

(** Every identifier of [ids] has a record in the state and the patch
    changes none of these records: merging the patch into the record gives
    the record back.  In the flat form the records addressed are those whose
    identifier field is among [ids]. *)
Definition unchanged_by (b : Backend) (h : list cell) (branch : value)
    (ids : list value) (patch : gmap string value) : Prop :=
  if indexById b then
    ∃ lm m, index_map b h branch lm m ∧
      Forall (fun id => ∃ k l rec, key_of id = Some k ∧ m !! k = Some (VRef l) ∧
                                   h !! l = Some (Obj rec) ∧ patch ∪ rec = rec) ids
  else
    ∃ la items, order_sequence b h branch la items ∧
      Forall (fun e => ∃ l rec, e = VRef l ∧ h !! l = Some (Obj rec) ∧
                                (default VUndef (rec !! idAttribute b) ∈ ids ->
                                 patch ∪ rec = rec)) items.

(** The identifier [id] has a record in the index map [m]. *)
Definition has_record (h : list cell) (m : gmap string value) (id : value) : Prop :=
  ∃ k l rec, key_of id = Some k ∧ m !! k = Some (VRef l) ∧ h !! l = Some (Obj rec).

(** The patch changes the record that [m] holds under the key [k]. *)
Definition changes (h : list cell) (m : gmap string value) (patch : gmap string value)
    (k : string) : Prop :=
  ∃ l rec, m !! k = Some (VRef l) ∧ h !! l = Some (Obj rec) ∧ patch ∪ rec ≠ rec.

(** The key [k] is affected by an update of [ids] with [patch]: it is the
    key of one of [ids] and the patch changes its record. *)
Definition affected (h : list cell) (m : gmap string value) (ids : list value)
    (patch : gmap string value) (k : string) : Prop :=
  (∃ id, id ∈ ids ∧ key_of id = Some k) ∧ changes h m patch k.

(** The callback [Backend.update] passes to [idArr.reduce] in the indexed
    form, and the one it passes to [map] in the flat form. *)
Definition update_reducer (call : nat -> value -> M value) (b : Backend)
    (branch patcher : value) (map id : value) : M value :=
  let! m := get_prop branch (mapName b) in
  let! old := get_index m id in
  let! result := Backend.mapFunction call patcher old in
  let! m := get_prop branch (mapName b) in
  let! old := get_index m id in
  (if strict_eq result old then ret tt else set_index map id result);;;
  ret map.

Definition update_mapper (call : nat -> value -> M value) (b : Backend)
    (idArr patcher : value) (updated : bool) (entity : value) : M (bool * value) :=
  let! eid := get_prop entity (idAttribute b) in
  let! inc := includes idArr eid in
  if inc : bool then
    let! result := Backend.mapFunction call patcher entity in
    let updated := if strict_eq entity result then updated else true in
    let! r := Backend.mapFunction call patcher entity in
    ret (updated, r)
  else ret (updated, entity).

(** What the reduce of [update] has built after [k] identifiers: the fresh
    object at [lu] holds, under the keys of the identifiers seen so far whose
    record the patch changes, references to new records, the old one merged
    with the patch; nothing that existed before has changed. *)
Definition update_progress (h0 : list cell) (m patch : gmap string value)
    (ids : list value) (lu : loc) (side : list (loc * cell))
    (k : nat) (s : value) (w' : world) : Prop :=
  s = VRef lu /\ preserved h0 (heap w') /\
  Forall (fun lc => heap w' !! lc.1 = Some lc.2 /\ (lc.1 < lu)%nat) side /\
  exists um, heap w' !! lu = Some (Obj um) /\
    (forall key v, um !! key = Some v ->
       exists l' l rec, v = VRef l' /\ (lu < l')%nat /\
         heap w' !! l' = Some (Obj (patch ∪ rec)) /\
         m !! key = Some (VRef l) /\ h0 !! l = Some (Obj rec) /\
         patch ∪ rec ≠ rec /\ exists id, id ∈ take k ids /\ key_of id = Some key) /\
    (forall j id key, (j < k)%nat -> ids !! j = Some id -> key_of id = Some key ->
       changes h0 m patch key -> is_Some (um !! key)).

(** The two-book store of [same_name_heap], the identifier array [[0]] at
    location 8, the patch [{name: "A"}], which changes nothing of book 0, at
    location 9 and the patch [{name: "C"}] at location 10. *)
Definition patch_heap : list cell :=
  same_name_heap ++
  [Arr [VNum 0]; Obj {["name" := VStr "A"]}; Obj {["name" := VStr "C"]}].

(** The statement that [update] returns the state reference it was given. *)
Definition update_returns_state (call : nat -> value -> M value) (b : Backend)
    (branch idArr patcher : value) (w : world) : Prop :=
  match Backend.update call b branch idArr patcher w with
  | Ok (r, _) => r = branch
  | Throw _ => False
  end.

(** The two-book store of [same_name_heap], the identifier array [[7]], which
    addresses no record, at location 8 and the patch [{name: "C"}] at
    location 9. *)
Definition missing_id_heap : list cell :=
  same_name_heap ++ [Arr [VNum 7]; Obj {["name" := VStr "C"]}].

(** ** Folding a queue *)

(** The one-book store of [one_book_heap], the record [{id: 1, name: "B"}]
    at location 4 and the identifier array [[1]] at location 5. *)
Definition queue_heap : list cell :=
  one_book_heap ++ [Obj record_B; Arr [VNum 1]].

(** The queue that creates book 1 and then deletes it, and the queue that
    deletes book 1 and then creates it. *)
Definition create_then_delete : list action :=
  [Action CREATE (VRef 4); Action DELETE (VRef 5)].

Definition delete_then_create : list action :=
  [Action DELETE (VRef 5); Action CREATE (VRef 4)].

(** [Book.getNextState()] over the state at location 2 with the queue [q],
    then the order sequence of the state it returns and what that state
    holds under the identifiers 0 and 1. *)
Definition fold_then_look (q : list action) : M (list value * value * value) :=
  fun w =>
    (let! st := Model.getNextState keep_order identity_call
                  (book_class defaultOpts (VRef 2)) in
     let! arr := Backend.accessIdList defaultOpts st in
     let! items := arr_elems arr in
     let! r0 := Backend.accessId defaultOpts st (VNum 0) in
     let! r1 := Backend.accessId defaultOpts st (VNum 1) in
     ret (items, r0, r1)) (set_updates q w).

(** * Reasoning about runs *)

Lemma wp_ret {A} (a : A) Q E w : Q a w -> wp (ret a) Q E w.
Proof. done. Qed.

Lemma wp_bind {A B} (m : M A) (k : A -> M B) Q E w :
  wp m (fun a => wp (k a) Q E) E w -> wp (bind m k) Q E w.
Proof. unfold wp, bind. by destruct (m w) as [[a w']|e]. Qed.

Lemma wp_run {A} (m : M A) Q E w a w' : m w = Ok (a, w') -> Q a w' -> wp m Q E w.
Proof. unfold wp. by intros ->. Qed.

Lemma wp_mono {A} (m : M A) (Q Q' : A -> world -> Prop) (E E' : error -> Prop) w :
  wp m Q E w -> (forall a w', Q a w' -> Q' a w') -> (forall e, E e -> E' e) -> wp m Q' E' w.
Proof. unfold wp. destruct (m w) as [[a w']|e]; eauto. Qed.

Lemma wp_returns {A} (m : M A) Q w :
  wp m Q no_error w <-> exists a w', m w = Ok (a, w') /\ Q a w'.
Proof.
  unfold wp, no_error. destruct (m w) as [[a w']|e]; split.
  - eauto.
  - by intros (a0 & w0 & [= -> ->] & HQ).
  - done.
  - by intros (a0 & w0 & ? & _).
Qed.

Lemma preserved_refl h : preserved h h.
Proof. by intros l c. Qed.

Lemma preserved_trans h1 h2 h3 : preserved h1 h2 -> preserved h2 h3 -> preserved h1 h3.
Proof. intros H12 H23 l c Hl. eauto. Qed.

Lemma preserved_alloc h c : preserved h (h ++ [c]).
Proof. intros l x Hl. rewrite lookup_app_l; [done|]. by eapply lookup_lt_Some. Qed.

Lemma heap_alloc_new (h : list cell) c : (h ++ [c]) !! length h = Some c.
Proof. by rewrite lookup_app_r, Nat.sub_diag. Qed.

(** ** What the primitives do on objects and arrays *)

Lemma deref_ok w l c : heap w !! l = Some c -> deref l w = Ok (c, w).
Proof. intros H. unfold deref. by rewrite H. Qed.

Lemma get_prop_obj w l fs k :
  heap w !! l = Some (Obj fs) -> get_prop (VRef l) k w = Ok (default VUndef (fs !! k), w).
Proof. intros H. unfold get_prop, bind. by rewrite (deref_ok _ _ _ H). Qed.

Lemma get_prop_length w l xs :
  heap w !! l = Some (Arr xs) ->
  get_prop (VRef l) "length" w = Ok (VNum (Z.of_nat (length xs)), w).
Proof. intros H. unfold get_prop, bind. by rewrite (deref_ok _ _ _ H). Qed.

(** A read under a computed key finds an own property first, and nothing
    where the key neither is an own property nor names a member of
    [Object.prototype]. *)
Lemma get_index_obj w l fs id k :
  heap w !! l = Some (Obj fs) -> key_of id = Some k ->
  is_Some (fs !! k) \/ k ∉ Object_prototype ->
  get_index (VRef l) id w = Ok (default VUndef (fs !! k), w).
Proof.
  intros H Hk Hown. unfold get_index, to_key, has_own.
  unfold bind at 1. rewrite Hk. cbn [ret].
  unfold bind at 1. unfold bind at 1. rewrite (deref_ok _ _ _ H). cbn [ret].
  destruct Hown as [Hown|Hown].
  - rewrite (bool_decide_eq_true_2 _ Hown). cbn [negb andb].
    by apply get_prop_obj.
  - rewrite (bool_decide_eq_false_2 _ Hown), andb_false_r.
    by apply get_prop_obj.
Qed.

(** The member a plain object inherits under a name of [Object.prototype]
    is not a value of the fragment: the read is not given a result. *)
Lemma get_index_inherited w l fs id k :
  heap w !! l = Some (Obj fs) -> key_of id = Some k ->
  fs !! k = None -> k ∈ Object_prototype ->
  get_index (VRef l) id w = Throw Unsupported.
Proof.
  intros H Hk Hnone Hin. unfold get_index, to_key, has_own.
  unfold bind at 1. rewrite Hk. cbn [ret].
  unfold bind at 1. unfold bind at 1. rewrite (deref_ok _ _ _ H). cbn [ret].
  rewrite Hnone, bool_decide_eq_false_2 by (by intros [? ?]).
  by rewrite bool_decide_eq_true_2.
Qed.

Lemma own_props_obj w l fs :
  heap w !! l = Some (Obj fs) -> own_props (VRef l) w = Ok (fs, w).
Proof. intros H. unfold own_props, bind. by rewrite (deref_ok _ _ _ H). Qed.

Lemma hasOwnProperty_obj w l fs k :
  heap w !! l = Some (Obj fs) ->
  hasOwnProperty (VRef l) k w = Ok (bool_decide (is_Some (fs !! k)), w).
Proof. intros H. unfold hasOwnProperty, bind. by rewrite (deref_ok _ _ _ H). Qed.

Lemma arr_elems_arr w l xs :
  heap w !! l = Some (Arr xs) -> arr_elems (VRef l) w = Ok (xs, w).
Proof. intros H. unfold arr_elems, bind. by rewrite (deref_ok _ _ _ H). Qed.

Lemma set_prop_obj w l fs k x :
  heap w !! l = Some (Obj fs) ->
  set_prop (VRef l) k x w = Ok (tt, set_heap (<[l := Obj (<[k:=x]> fs)]> (heap w)) w).
Proof. intros H. unfold set_prop, bind. by rewrite (deref_ok _ _ _ H). Qed.

Lemma set_heap_same w : set_heap (heap w) w = w.
Proof. by destruct w. Qed.

(** Writing to a property the value it already has changes nothing. *)
Lemma set_prop_same w l fs k x :
  heap w !! l = Some (Obj fs) -> fs !! k = Some x ->
  set_prop (VRef l) k x w = Ok (tt, w).
Proof.
  intros H Hk. rewrite (set_prop_obj _ _ _ _ _ H).
  rewrite (insert_id fs k x Hk), (list_insert_id _ _ _ H).
  by rewrite set_heap_same.
Qed.

Lemma assign_new_objs w la fa lb fb :
  heap w !! la = Some (Obj fa) -> heap w !! lb = Some (Obj fb) ->
  assign_new (VRef la) (VRef lb) w
  = Ok (VRef (length (heap w)), set_heap (heap w ++ [Obj (fb ∪ fa)]) w).
Proof.
  intros Ha Hb. unfold assign_new, bind.
  by rewrite (own_props_obj _ _ _ Ha), (own_props_obj _ _ _ Hb).
Qed.

Lemma assign_new_copy w la fa :
  heap w !! la = Some (Obj fa) ->
  assign_new (VRef la) VUndef w
  = Ok (VRef (length (heap w)), set_heap (heap w ++ [Obj fa]) w).
Proof.
  intros Ha. unfold assign_new, bind.
  rewrite (own_props_obj _ _ _ Ha). simpl. by rewrite (left_id_L ∅ (∪)).
Qed.

Lemma to_key_prim w v k : key_of v = Some k -> to_key v w = Ok (k, w).
Proof. intros H. unfold to_key. by rewrite H. Qed.

Lemma alloc_run w c :
  alloc c w = Ok (VRef (length (heap w)), set_heap (heap w ++ [c]) w).
Proof. done. Qed.

(** [a.concat(x)] with a primitive [x] appends [x] itself. *)
Lemma concat_prim w la xs x :
  heap w !! la = Some (Arr xs) -> is_Some (key_of x) ->
  concat (VRef la) x w
  = Ok (VRef (length (heap w)), set_heap (heap w ++ [Arr (xs ++ [x])]) w).
Proof.
  intros Ha [k Hk]. unfold concat, bind. rewrite (arr_elems_arr _ _ _ Ha).
  by destruct x.
Qed.

Lemma lookup_alloc_old (h : list cell) c l x :
  h !! l = Some x -> (h ++ [c]) !! l = Some x.
Proof. apply preserved_alloc. Qed.

Lemma preserved_alloc_r h h' c : preserved h h' -> preserved h (h' ++ [c]).
Proof. intros H. eapply preserved_trans; [done|apply preserved_alloc]. Qed.

Create HintDb heap.
#[local] Hint Resolve lookup_alloc_old heap_alloc_new preserved_refl preserved_alloc_r : heap.

Ltac wp_simpl := cbn [heap set_heap updates cache_nextId rel_calls accessed].
Ltac wp_prim lem := eapply wp_run; [ eapply lem; wp_simpl; eauto with heap | wp_simpl ].
Ltac wp_next lem := apply wp_bind; wp_prim lem.

(** * Backend.insert, copy-on-write *)

Lemma insert_cow_cells (b : Backend) (w : world) lb fs la xs lm m le rec k :
  indexById b = true -> withMutations b = false ->
  heap w !! lb = Some (Obj fs) ->
  fs !! arrName b = Some (VRef la) -> heap w !! la = Some (Arr xs) ->
  fs !! mapName b = Some (VRef lm) -> heap w !! lm = Some (Obj m) ->
  heap w !! le = Some (Obj rec) ->
  key_of (default VUndef (rec !! idAttribute b)) = Some k ->
  wp (Backend.insert b (VRef lb) (VRef le))
     (fun r w' => ∃ lb' la' lm', r = VRef lb' ∧
        (length (heap w) ≤ lb')%nat ∧ (length (heap w) ≤ la')%nat ∧
        (length (heap w) ≤ lm')%nat ∧
        heap w' !! lb' = Some (Obj (<[mapName b := VRef lm']> {[arrName b := VRef la']})) ∧
        heap w' !! la' = Some (Arr (xs ++ [default VUndef (rec !! idAttribute b)])) ∧
        heap w' !! lm' = Some (Obj (<[k := VRef le]> m)) ∧
        preserved (heap w) (heap w')) no_error w.
Proof.
  intros Hi Hm Hb Ha Hxs Hmn Hmm He Hk.
  set (id := default VUndef (rec !! idAttribute b)) in *.
  unfold Backend.insert. rewrite Hi, Hm.
  wp_next get_prop_obj. fold id.
  wp_next get_prop_obj. rewrite Ha. simpl.
  wp_next concat_prim.
  wp_next get_prop_obj. rewrite Hmn. simpl.
  wp_next to_key_prim.
  wp_next alloc_run.
  wp_next assign_new_objs.
  wp_prim alloc_run.
  eexists _, _, _. split; [reflexivity|].
  rewrite <- insert_union_singleton_l.
  repeat split; cycle 3.
  1-4: eauto 10 with heap.
  all: rewrite ?length_app; simpl; lia.
Qed.

(** C9. In copy-on-write mode, [insert] on an indexed state returns a new
    state object whose order sequence is a new array, the old sequence with
    the identifier of the entry appended, and whose index map is a new object,
    the old map with the one entry added under the key of that identifier.
    Every object that existed before the call is unchanged: the old state, its
    order sequence and its index map among them. *)
Theorem insert_copy_on_write (b : Backend) (w : world) branch la xs lm m le rec k :
  indexById b = true -> withMutations b = false -> arrName b ≠ mapName b ->
  order_sequence b (heap w) branch la xs -> index_map b (heap w) branch lm m ->
  heap w !! le = Some (Obj rec) ->
  key_of (default VUndef (rec !! idAttribute b)) = Some k ->
  ∃ w' lb' la' lm',
    Backend.insert b branch (VRef le) w = Ok (VRef lb', w') ∧
    (length (heap w) ≤ lb')%nat ∧ (length (heap w) ≤ la')%nat ∧
    (length (heap w) ≤ lm')%nat ∧
    order_sequence b (heap w') (VRef lb') la'
      (xs ++ [default VUndef (rec !! idAttribute b)]) ∧
    index_map b (heap w') (VRef lb') lm' (<[k := VRef le]> m) ∧
    order_sequence b (heap w') branch la xs ∧
    index_map b (heap w') branch lm m ∧
    preserved (heap w) (heap w').
Proof.
  intros Hi Hm Hne (lb & fs & -> & Hb & Ha & Hxs) (lb0 & fs0 & [= <-] & Hb0 & Hmn & Hmm)
    He Hk.
  rewrite Hb in Hb0. injection Hb0 as <-.
  assert (H := insert_cow_cells b w lb fs la xs lm m le rec k
                 Hi Hm Hb Ha Hxs Hmn Hmm He Hk).
  apply wp_returns in H
    as (r & w' & Hrun & lb' & la' & lm' & -> & Hlb & Hla & Hlm & Hcell & Harr & Hmap & Hpres).
  exists w', lb', la', lm'. split; [exact Hrun|].
  split; [exact Hlb|]. split; [exact Hla|]. split; [exact Hlm|].
  split; [|split; [|split; [|split; [|exact Hpres]]]].
  - eexists lb', _. split; [reflexivity|]. split; [exact Hcell|]. split; [|exact Harr].
    rewrite lookup_insert_ne by done. apply lookup_singleton_eq.
  - eexists lb', _. split; [reflexivity|]. split; [exact Hcell|]. split; [|exact Hmap].
    apply lookup_insert_eq.
  - exists lb, fs. split; [reflexivity|]. split; [by apply Hpres|]. split; [exact Ha|].
    by apply Hpres.
  - exists lb, fs. split; [reflexivity|]. split; [by apply Hpres|]. split; [exact Hmn|].
    by apply Hpres.
Qed.

Lemma insert_copy_on_write_witness :
  ∃ w' lb' la' lm',
    Backend.insert defaultOpts (VRef 2) (VRef 3)
      (empty_world (default_state_heap ++ [Obj record_A])) = Ok (VRef lb', w') ∧
    (4 ≤ lb')%nat ∧ (4 ≤ la')%nat ∧ (4 ≤ lm')%nat ∧
    order_sequence defaultOpts (heap w') (VRef lb') la' [VNum 0] ∧
    index_map defaultOpts (heap w') (VRef lb') lm' (<["0" := VRef 3]> ∅) ∧
    order_sequence defaultOpts (heap w') (VRef 2) 0 [] ∧
    index_map defaultOpts (heap w') (VRef 2) 1 ∅ ∧
    preserved (default_state_heap ++ [Obj record_A]) (heap w').
Proof.
  apply (insert_copy_on_write defaultOpts
           (empty_world (default_state_heap ++ [Obj record_A]))
           (VRef 2) 0%nat [] 1%nat ∅ 3%nat record_A "0").
  - reflexivity.
  - reflexivity.
  - discriminate.
  - exists 2%nat, (<["itemsById" := VRef 1]> {["items" := VRef 0]}).
    repeat split; reflexivity.
  - exists 2%nat, (<["itemsById" := VRef 1]> {["items" := VRef 0]}).
    repeat split; reflexivity.
  - reflexivity.
  - reflexivity.
Defined.

(** * Runs on concrete stores *)

(** C1. On the empty store, a create with the explicit identifier 0 leaves
    the next identifier at 0 ([0 > 0] is false), so the create without an
    identifier that follows in the same batch is given 0 again: the queue
    holds two CREATE actions with the same identifier. *)
Theorem create_auto_id_collides :
  value_of (create_explicit_then_auto (empty_world default_state_heap))
  = Ok (VNum 0, VNum 0, [(CREATE, VNum 0); (CREATE, VNum 0)]).
Proof. vm_compute. reflexivity. Qed.

(** C2. On a flat state mutated in place, deleting identifier 0 looks the
    number 0 up among the records, does not find it, and splices at index -1:
    the last record (identifier 1) goes and the record with identifier 0
    stays.  The copy-on-write path on the same state, and both paths on an
    indexed state, remove the record with identifier 0 and keep the other. *)
Theorem delete_flat_in_place_removes_last :
  value_of (delete_then_look (flat_backend true) (VRef 3) (VRef 4)
              (empty_world flat_state_heap))
  = Ok (VRef 3, VRef 0, VUndef, [VRef 0])
  /\ value_of (delete_then_look (flat_backend false) (VRef 3) (VRef 4)
                 (empty_world flat_state_heap))
     = Ok (VRef 6, VUndef, VRef 1, [VRef 1])
  /\ value_of (delete_then_look (indexed_backend true) (VRef 2) (VRef 8)
                 (empty_world patch_heap))
     = Ok (VRef 2, VUndef, VRef 4, [VNum 1])
  /\ value_of (delete_then_look (indexed_backend false) (VRef 2) (VRef 8)
                 (empty_world patch_heap))
     = Ok (VRef 13, VUndef, VRef 4, [VNum 1]).
Proof. repeat split; vm_compute; reflexivity. Qed.

(** C8. Assigning [book.name = "B"] leaves [book.name] at ["A"] and
    queues one UPDATE action, whose payload is [{id: 0, name: "B"}]; the
    fold reads [idArr] and [updater] from that payload, finds neither, and
    fails with a TypeError on [idArr.reduce].  The sibling [set] queues
    [{idArr: [0], updater: {name: "B"}}], and the fold stores ["B"]. *)
Theorem assignment_breaks_the_fold
    (sortByOrder : value -> value -> value -> M value) (call : nat -> value -> M value)
    (relatedIdArr : value -> string -> M value) :
  value_of (assign_then_read (empty_world one_book_heap))
  = Ok (VRef 4, VStr "A", [(UPDATE, VStr "B")])
  ∧ value_of (assign_then_fold sortByOrder call (empty_world one_book_heap))
    = Throw TypeError
  ∧ value_of (set_then_fold sortByOrder call relatedIdArr (empty_world one_book_heap))
    = Ok (VStr "B").
Proof. repeat split; vm_compute; reflexivity. Qed.

(** * Model.withId *)

Lemma find_first_none (p : value -> M bool) xs w :
  Forall (fun x => p x w = Ok (false, w)) xs ->
  Lodash.find_first p xs w = Ok (VUndef, w).
Proof.
  induction 1 as [|x xs Hx _ IH]; [done|].
  simpl. unfold bind at 1. by rewrite Hx.
Qed.

Lemma matches_property_record w k v l rec :
  is_Some (key_of v) -> heap w !! l = Some (Obj rec) ->
  Lodash.matches_property k v (VRef l) w = Ok (bool_decide (rec !! k = Some v), w).
Proof.
  intros [s Hs] Hl. unfold Lodash.matches_property.
  destruct v; try done; unfold bind; by rewrite (deref_ok _ _ _ Hl).
Qed.

Lemma accessId_absent b w branch id :
  id_absent b (heap w) branch id ->
  (indexById b = true -> plain_key id) ->
  Backend.accessId b branch id w = Ok (VUndef, w).
Proof.
  unfold id_absent, Backend.accessId. destruct (indexById b).
  - intros (lm & m & k & (lb & fs & -> & Hb & Hm & Hlm) & Hk & Hnone) Hplain.
    unfold bind at 1. rewrite (get_prop_obj _ _ _ _ Hb), Hm. cbn [default from_option Datatypes.id].
    rewrite (get_index_obj _ _ _ _ _ Hlm Hk (or_intror (Hplain eq_refl k Hk))).
    by rewrite Hnone.
  - intros (Hprim & la & items & (lb & fs & -> & Hb & Ha & Hla) & Hall) _.
    unfold bind at 1. rewrite (get_prop_obj _ _ _ _ Hb), Ha. cbn [default from_option Datatypes.id].
    unfold Lodash.find, bind. rewrite (arr_elems_arr _ _ _ Hla).
    apply find_first_none. eapply Forall_impl; [exact Hall|].
    intros e (rec & (l & -> & Hl) & Hne). simpl in Hne.
    rewrite (matches_property_record _ _ _ _ _ Hprim Hl).
    by rewrite bool_decide_eq_false_2.
Qed.

(** In the indexed form, an identifier that is not in the state and whose
    key names a member of [Object.prototype] reaches that member: the lookup
    is not given a result, and in particular not undefined. *)
Lemma accessId_inherited_member b w branch id lm m k :
  indexById b = true -> index_map b (heap w) branch lm m ->
  key_of id = Some k -> m !! k = None -> k ∈ Object_prototype ->
  Backend.accessId b branch id w = Throw Unsupported.
Proof.
  intros Hix (lb & fs & -> & Hb & Hm & Hlm) Hk Hnone Hin.
  unfold Backend.accessId. rewrite Hix.
  unfold bind at 1. rewrite (get_prop_obj _ _ _ _ Hb), Hm. cbn [default from_option Datatypes.id].
  by apply (get_index_inherited _ _ _ _ _ Hlm Hk Hnone Hin).
Qed.

Lemma Model_accessId_run cls id w r :
  Backend.accessId (backend cls) (state cls) id (mark w) = r ->
  Model.accessId cls id w = r.
Proof. by intros <-. Qed.

Lemma Model_accessIds_run cls w r :
  Backend.accessIdList (backend cls) (state cls) (mark w) = r ->
  Model.accessIds cls w = r.
Proof. by intros <-. Qed.

Lemma new_instance_undefined cls w :
  Model.new_instance cls VUndef w
  = Ok (VRef (length (heap w)), set_heap (heap w ++ [Inst VUndef [] ∅]) w).
Proof.
  unfold Model.new_instance. unfold bind at 1. simpl.
  rewrite map_to_list_empty. reflexivity.
Qed.

(** C4, as amended.  For an identifier that is not in the state, and whose
    key, where the state is indexed by identifier, is not a name the index
    map inherits from [Object.prototype], [withId] returns neither an absent
    indicator nor an error: it returns a new Model instance whose [_fields]
    is undefined and which has no field names and no accessors. *)
Theorem withId_absent_returns_empty_instance (cls : ModelClass) (w : world) (id : value) :
  id_absent (backend cls) (heap w) (state cls) id ->
  (indexById (backend cls) = true -> plain_key id) ->
  Model.withId cls id w
  = Ok (VRef (length (heap w)),
        set_heap (heap w ++ [Inst VUndef [] ∅]) (mark w)).
Proof.
  intros Habs Hplain. unfold Model.withId. unfold bind at 1.
  assert (Hrun : Model.accessId cls id w = Ok (VUndef, mark w)).
  { apply Model_accessId_run. by apply accessId_absent. }
  rewrite Hrun. exact (new_instance_undefined cls (mark w)).
Qed.

Lemma withId_absent_returns_empty_instance_witness :
  id_absent defaultOpts one_book_heap (VRef 2) (VNum 7)
  ∧ plain_key (VNum 7)
  ∧ Model.withId (book_class defaultOpts (VRef 2)) (VNum 7) (empty_world one_book_heap)
    = Ok (VRef 4, set_heap (one_book_heap ++ [Inst VUndef [] ∅])
                    (mark (empty_world one_book_heap))).
Proof.
  assert (H : id_absent defaultOpts one_book_heap (VRef 2) (VNum 7)).
  { exists 1%nat, {["0" := VRef 3]}, "7". split; [|split; reflexivity].
    exists 2%nat, (<["itemsById" := VRef 1]> {["items" := VRef 0]}).
    repeat split; reflexivity. }
  assert (Hp : plain_key (VNum 7)).
  { intros k [= <-].
    apply (bool_decide_eq_false_1 (pretty 7%Z ∈ Object_prototype)).
    vm_compute. reflexivity. }
  split; [exact H|]. split; [exact Hp|].
  exact (withId_absent_returns_empty_instance
           (book_class defaultOpts (VRef 2)) (empty_world one_book_heap) (VNum 7) H
           (fun _ => Hp)).
Defined.

(** C4, as stated, fails: 7 is not an identifier of the one-book store, and
    [withId(7)] answers with a reference to a new instance. *)
Lemma withId_absent_counterexample :
  id_absent defaultOpts one_book_heap (VRef 2) (VNum 7)
  ∧ ¬ withId_signals_absence (book_class defaultOpts (VRef 2)) (VNum 7)
        (empty_world one_book_heap).
Proof.
  split.
  - exists 1%nat, {["0" := VRef 3]}, "7". split; [|split; reflexivity].
    exists 2%nat, (<["itemsById" := VRef 1]> {["items" := VRef 0]}).
    repeat split; reflexivity.
  - unfold withId_signals_absence, absent_indicator. vm_compute.
    intros [H|H]; discriminate H.
Qed.

(** * Model.get *)

Lemma foldM_init_fields cls l rec ps (s : list string * gmap string value) w :
  heap w !! l = Some (Obj rec) ->
  Forall (fun kv => rec !! kv.1 = Some kv.2) ps ->
  foldM (fun '(names, acc) '(fieldName, fieldValue) =>
           set_prop (VRef l) fieldName fieldValue;;;
           ret (names ++ [fieldName],
                if bool_decide (fieldName ∈ definedProperties cls) then acc
                else <[fieldName := fieldValue]> acc)) ps s w
  = Ok (foldl (fun '(names, acc) '(fieldName, fieldValue) =>
                 (names ++ [fieldName],
                  if bool_decide (fieldName ∈ definedProperties cls) then acc
                  else <[fieldName := fieldValue]> acc)) s ps, w).
Proof.
  intros Hl Hall. revert s. induction Hall as [|[k v] ps Hkv _ IH]; intros [names acc].
  - done.
  - simpl in Hkv. cbn [foldM foldl]. unfold bind at 1. unfold bind at 1.
    rewrite (set_prop_same _ _ _ _ _ Hl Hkv). apply IH.
Qed.

Lemma new_instance_record cls w l rec :
  heap w !! l = Some (Obj rec) ->
  Model.new_instance cls (VRef l) w
  = Ok (VRef (length (heap w)), set_heap (heap w ++ [instance_of cls (VRef l) rec]) w).
Proof.
  intros Hl. unfold Model.new_instance. unfold bind at 1.
  rewrite (own_props_obj _ _ _ Hl). unfold bind at 1.
  rewrite (foldM_init_fields cls l rec _ _ w Hl).
  - unfold instance_of, init_fields.
    by destruct (foldl _ _ _) as [names acc].
  - apply Forall_forall. intros [k v] Hin. by apply elem_of_map_to_list in Hin.
Qed.

Lemma accessIds_length cls w la xs :
  order_sequence (backend cls) (heap w) (state cls) la xs ->
  (let! ids := Model.accessIds cls in get_prop ids "length") w
  = Ok (VNum (Z.of_nat (length xs)), mark w).
Proof.
  intros (lb & fs & Hst & Hb & Ha & Hla).
  unfold bind at 1.
  erewrite Model_accessIds_run; last first.
  { unfold Backend.accessIdList. rewrite Hst.
    rewrite (get_prop_obj (mark w) lb fs _ Hb), Ha. reflexivity. }
  cbn [default from_option Datatypes.id].
  by rewrite (get_prop_length (mark w) la xs Hla).
Qed.

Lemma truthy_length (xs : list value) : truthy (VNum (Z.of_nat (length xs))) = negb (bool_decide (xs = [])).
Proof. by destruct xs. Qed.

(** C10. On a store that is not empty, [get] with a lookup object that has
    the identifier attribute among its keys looks that identifier up and
    nothing else: it returns a new instance over the record [accessId] finds
    under the identifier, and raises the not-found error when [accessId]
    finds none, whatever the other keys of the lookup object hold. *)
Theorem get_by_id_ignores_other_keys (cls : ModelClass) (w : world)
    la xs ll lk id :
  order_sequence (backend cls) (heap w) (state cls) la xs -> xs ≠ [] ->
  heap w !! ll = Some (Obj lk) ->
  lk !! idAttribute (backend cls) = Some id ->
  (forall le rec,
     Backend.accessId (backend cls) (state cls) id (mark w) = Ok (VRef le, mark w) ->
     heap w !! le = Some (Obj rec) ->
     Model.get cls (VRef ll) w
     = Ok (VRef (length (heap w)),
           set_heap (heap w ++ [instance_of cls (VRef le) rec]) (mark w)))
  /\ (Backend.accessId (backend cls) (state cls) id (mark w) = Ok (VUndef, mark w) ->
      Model.get cls (VRef ll) w = Throw Model.not_found).
Proof.
  intros Hseq Hne Hll Hid.
  assert (Hhead : forall props,
    Backend.accessId (backend cls) (state cls) id (mark w) = Ok (props, mark w) ->
    Model.get cls (VRef ll) w
    = (if bool_decide (props ≠ VUndef) then Model.new_instance cls props
       else throw Model.not_found) (mark w)).
  { intros props Hacc. unfold Model.get.
    assert (Hlen := accessIds_length cls w la xs Hseq).
    unfold bind at 1 in Hlen. unfold bind at 1.
    destruct (Model.accessIds cls w) as [[ids w1]|e]; [|discriminate Hlen].
    unfold bind at 1. rewrite Hlen. rewrite truthy_length.
    rewrite bool_decide_eq_false_2 by done. cbn [negb].
    unfold bind at 1. rewrite (hasOwnProperty_obj (mark w) ll lk _ Hll).
    unfold Model.idAttr. rewrite Hid.
    rewrite bool_decide_eq_true_2 by eauto.
    unfold bind at 1. rewrite (get_prop_obj (mark w) ll lk _ Hll), Hid.
    cbn [default from_option Datatypes.id].
    unfold bind at 1.
    by rewrite (Model_accessId_run cls id (mark w) _ Hacc). }
  split.
  - intros le rec Hacc Hle. rewrite (Hhead _ Hacc).
    rewrite bool_decide_eq_true_2 by done.
    exact (new_instance_record cls (mark w) le rec Hle).
  - intros Hacc. rewrite (Hhead _ Hacc).
    by rewrite bool_decide_eq_false_2 by (intros H; by apply H).
Qed.

Lemma get_by_id_ignores_other_keys_witness :
  Model.get (book_class defaultOpts (VRef 2)) (VRef 7) (empty_world same_name_heap)
  = Ok (VRef 8,
        set_heap (same_name_heap
                  ++ [instance_of (book_class defaultOpts (VRef 2)) (VRef 4)
                        (<["name" := VStr "A"]> {["id" := VNum 1]})])
                 (mark (empty_world same_name_heap))).
Proof.
  refine (proj1 (get_by_id_ignores_other_keys (book_class defaultOpts (VRef 2))
                   (empty_world same_name_heap) 0%nat [VNum 0; VNum 1] 7%nat
                   (<["name" := VStr "Z"]> {["id" := VNum 1]}) (VNum 1) _ _ _ _)
                4%nat (<["name" := VStr "A"]> {["id" := VNum 1]}) _ _).
  - exists 2%nat, (<["itemsById" := VRef 1]> {["items" := VRef 0]}).
    repeat split; reflexivity.
  - discriminate.
  - reflexivity.
  - reflexivity.
  - reflexivity.
  - reflexivity.
Defined.

(** ** The scan of [get] *)

Lemma every_forallb {A} (p : A -> M bool) (f : A -> bool) xs w :
  Forall (fun x => p x w = Ok (f x, w)) xs ->
  Utils.every p xs w = Ok (forallb f xs, w).
Proof.
  induction 1 as [|x xs Hx _ IH]; [done|].
  cbn [Utils.every forallb]. unfold bind at 1. rewrite Hx.
  destruct (f x); [exact IH|done].
Qed.

Lemma match_record w ll lk l rec :
  heap w !! ll = Some (Obj lk) -> heap w !! l = Some (Obj rec) ->
  Utils.match_ (VRef ll) (VRef l) w = Ok (bool_decide (matches lk rec), w).
Proof.
  intros Hll Hl. unfold Utils.match_. unfold bind at 1.
  rewrite (own_props_obj _ _ _ Hll).
  rewrite (every_forallb _
             (fun kv => bool_decide (kv.2 = default VUndef (rec !! kv.1)))).
  - f_equal. f_equal. apply eq_true_iff_eq.
    rewrite forallb_forall, bool_decide_eq_true.
    unfold matches. rewrite map_Forall_to_list, Forall_forall.
    split.
    + intros H [k v] Hin. apply list_elem_of_In, H in Hin.
      by apply bool_decide_eq_true in Hin.
    + intros H [k v] Hin. apply list_elem_of_In, H in Hin.
      by apply bool_decide_eq_true.
  - apply Forall_forall. intros [k v] _.
    unfold bind. by rewrite (get_prop_obj _ _ _ _ Hl).
Qed.

Lemma next_inside w la xs i gv e :
  heap w !! la = Some (Arr xs) -> (i < length xs)%nat ->
  gv (VRef la) i w = Ok (e, w) ->
  Utils.next {| Utils.it_list := VRef la; Utils.it_idx := i; Utils.it_getValue := gv |} w
  = Ok ((Some (e, bool_decide (S i = length xs)),
         {| Utils.it_list := VRef la; Utils.it_idx := S i; Utils.it_getValue := gv |}), w).
Proof.
  intros Hla Hi Hgv. unfold Utils.next. cbn [Utils.it_list Utils.it_idx Utils.it_getValue].
  unfold bind at 1. rewrite (arr_elems_arr _ _ _ Hla).
  destruct (decide (S i = length xs)) as [Hlast|Hlast].
  - rewrite bool_decide_eq_false_2 by lia.
    rewrite bool_decide_eq_true_2 by lia.
    unfold bind. rewrite Hgv. by rewrite bool_decide_eq_true_2.
  - rewrite bool_decide_eq_true_2 by lia.
    unfold bind. rewrite Hgv. by rewrite bool_decide_eq_false_2.
Qed.

Section Scan.
Variable cls : ModelClass.
Variable w : world.
Variables (ll la : loc) (lk : gmap string value) (xs es : list value).
Variable gv : value -> nat -> M value.
Hypothesis Hll : heap w !! ll = Some (Obj lk).
Hypothesis Hla : heap w !! la = Some (Arr xs).
Hypothesis Hlen : length xs = length es.
Hypothesis Hgv : forall j l,
  es !! j = Some (VRef l) -> gv (VRef la) j w = Ok (VRef l, w).

Lemma get_loop_found n : forall i fuel l rec,
  (n < fuel)%nat ->
  es !! (i + n)%nat = Some (VRef l) -> heap w !! l = Some (Obj rec) -> matches lk rec ->
  (forall j, (i <= j < i + n)%nat ->
     exists l' rec', es !! j = Some (VRef l') /\ heap w !! l' = Some (Obj rec')
                     /\ ~ matches lk rec') ->
  Model.get_loop cls fuel (VRef ll)
    {| Utils.it_list := VRef la; Utils.it_idx := i; Utils.it_getValue := gv |} w
  = Model.new_instance cls (VRef l) w.
Proof.
  induction n as [|n IH]; intros i fuel l rec Hfuel Hat Hl Hm Hbefore.
  - destruct fuel as [|fuel]; [lia|]. rewrite Nat.add_0_r in Hat.
    cbn [Model.get_loop]. unfold bind at 1.
    rewrite (next_inside w la xs i gv (VRef l) Hla).
    + unfold bind at 1. rewrite (match_record w ll lk l rec Hll Hl).
      by rewrite bool_decide_eq_true_2.
    + rewrite Hlen. by eapply lookup_lt_Some.
    + by apply Hgv.
  - destruct fuel as [|fuel]; [lia|].
    destruct (Hbefore i) as (l' & rec' & Hi & Hl' & Hnm); [lia|].
    assert (Hin : (i + S n < length xs)%nat)
      by (rewrite Hlen; by eapply lookup_lt_Some).
    cbn [Model.get_loop]. unfold bind at 1.
    rewrite (next_inside w la xs i gv (VRef l') Hla); [|lia|by apply Hgv].
    unfold bind at 1. rewrite (match_record w ll lk l' rec' Hll Hl').
    rewrite bool_decide_eq_false_2 by done.
    rewrite bool_decide_eq_false_2 by lia.
    apply (IH (S i) fuel l rec); [lia| |done|done|].
    + by replace (S i + n)%nat with (i + S n)%nat by lia.
    + intros j Hj. apply Hbefore. lia.
Qed.

Lemma get_loop_not_found n : forall i fuel,
  (n < fuel)%nat -> (i + S n = length es)%nat ->
  (forall j, (i <= j)%nat -> (j < length es)%nat ->
     exists l' rec', es !! j = Some (VRef l') /\ heap w !! l' = Some (Obj rec')
                     /\ ~ matches lk rec') ->
  Model.get_loop cls fuel (VRef ll)
    {| Utils.it_list := VRef la; Utils.it_idx := i; Utils.it_getValue := gv |} w
  = Throw Model.not_found.
Proof.
  induction n as [|n IH]; intros i fuel Hfuel Hend Hall;
    (destruct fuel as [|fuel]; [lia|]);
    (destruct (Hall i) as (l' & rec' & Hi & Hl' & Hnm); [lia|lia|]);
    cbn [Model.get_loop]; unfold bind at 1;
    (rewrite (next_inside w la xs i gv (VRef l') Hla); [|lia|by apply Hgv]);
    unfold bind at 1; rewrite (match_record w ll lk l' rec' Hll Hl');
    rewrite (bool_decide_eq_false_2 _ Hnm).
  - by rewrite bool_decide_eq_true_2 by lia.
  - rewrite bool_decide_eq_false_2 by lia.
    apply IH; [lia|lia|]. intros j Hj Hlt. apply Hall; lia.
Qed.
End Scan.

Lemma arr_get_at w la xs j :
  heap w !! la = Some (Arr xs) ->
  arr_get (VRef la) j w = Ok (default VUndef (xs !! j), w).
Proof. intros Hla. unfold arr_get, bind. by rewrite (arr_elems_arr _ _ _ Hla). Qed.

Lemma get_reaches_loop cls w ll lk es :
  iterates (backend cls) (heap w) (state cls) es ->
  heap w !! ll = Some (Obj lk) -> lk !! idAttribute (backend cls) = None ->
  exists la xs gv,
    heap w !! la = Some (Arr xs) /\ length xs = length es /\
    (forall j l, es !! j = Some (VRef l) ->
       gv (VRef la) j (mark w) = Ok (VRef l, mark w)) /\
    (xs = [] -> Model.get cls (VRef ll) w = Throw (Model.no_entities cls)) /\
    (xs ≠ [] ->
     Model.get cls (VRef ll) w
     = Model.get_loop cls (S (length xs)) (VRef ll)
         {| Utils.it_list := VRef la; Utils.it_idx := 0; Utils.it_getValue := gv |}
         (mark w)).
Proof.
  intros (la & xs & Hseq & Hform) Hll Hnoid.
  assert (Hlen := accessIds_length cls w la xs Hseq).
  destruct Hseq as (lb & fs & Hst & Hb & Ha & Hla).
  assert (Hhead :
    xs ≠ [] ->
    Model.get cls (VRef ll) w
    = (let! it := Model.iterator cls in
       Model.get_loop cls (S (length xs)) (VRef ll) it) (mark w)).
  { intros Hne. unfold Model.get.
    unfold bind at 1 in Hlen. unfold bind at 1.
    destruct (Model.accessIds cls w) as [[ids w1]|e]; [|discriminate Hlen].
    unfold bind at 1. rewrite Hlen, truthy_length.
    rewrite bool_decide_eq_false_2 by done. cbn [negb].
    unfold bind at 1. rewrite (hasOwnProperty_obj (mark w) ll lk _ Hll).
    unfold Model.idAttr. rewrite Hnoid.
    rewrite bool_decide_eq_false_2 by (by intros [? ?]).
    by rewrite Nat2Z.id. }
  assert (Hempty : xs = [] -> Model.get cls (VRef ll) w = Throw (Model.no_entities cls)).
  { intros ->. unfold Model.get.
    unfold bind at 1 in Hlen. unfold bind at 1.
    destruct (Model.accessIds cls w) as [[ids w1]|e]; [|discriminate Hlen].
    unfold bind at 1. by rewrite Hlen. }
  assert (Hiter : forall gv,
    Backend.iterator (backend cls) (state cls) (mark w)
    = Ok ({| Utils.it_list := VRef la; Utils.it_idx := 0; Utils.it_getValue := gv |}, mark w) ->
    forall k : Utils.ListIterator -> M value,
    (let! it := Model.iterator cls in k it) (mark w)
    = k {| Utils.it_list := VRef la; Utils.it_idx := 0; Utils.it_getValue := gv |} (mark w)).
  { intros gv Hit k. unfold bind at 1. unfold Model.iterator, bind, Model.markAccessed.
    cbn [heap updates cache_nextId rel_calls mark].
    change (World (heap w) (updates w) (cache_nextId w) (rel_calls w) true) with (mark w).
    by rewrite Hit. }
  unfold Backend.iterator in Hiter. rewrite Hst in Hiter, Hform.
  unfold bind at 1 in Hiter.
  rewrite (get_prop_obj (mark w) lb fs _ Hb), Ha in Hiter.
  cbn [default from_option Datatypes.id] in Hiter.
  destruct (indexById (backend cls)).
  - destruct Hform as (lm & m & (lb' & fs' & [= <-] & Hb' & Hm & Hlm) & Hall).
    rewrite Hb in Hb'. injection Hb' as <-.
    exists la, xs, (fun list idx =>
                      let! m := get_prop (VRef lb) (mapName (backend cls)) in
                      let! id := arr_get list idx in
                      get_index m id).
    repeat split; [exact Hla|by eapply Forall2_length| |exact Hempty|].
    + intros j l Hj.
      destruct (Forall2_lookup_r _ _ _ _ _ Hall Hj) as (id & Hid & k & Hk & He).
      assert (Hmk : m !! k = Some (VRef l)).
      { destruct (m !! k) as [x|]; [by simplify_eq/=|discriminate He]. }
      unfold bind at 1. rewrite (get_prop_obj (mark w) lb fs _ Hb), Hm.
      cbn [default from_option Datatypes.id].
      unfold bind at 1. rewrite (arr_get_at (mark w) la xs j Hla), Hid.
      cbn [default from_option Datatypes.id].
      rewrite (get_index_obj (mark w) lm m id k Hlm Hk (or_introl (mk_is_Some _ _ Hmk))).
      by rewrite Hmk.
    + intros Hne. rewrite (Hhead Hne).
      apply (Hiter _ eq_refl).
  - subst es.
    exists la, xs, Utils.default_getValue. repeat split; [exact Hla| |exact Hempty|].
    + intros j l Hj. unfold Utils.default_getValue.
      by rewrite (arr_get_at (mark w) la xs j Hla), Hj.
    + intros Hne. rewrite (Hhead Hne).
      apply (Hiter _ eq_refl).
Qed.

(** C3, as amended.  [get] with a lookup object that lacks the identifier
    attribute scans the entities in order and returns a new instance over the
    first one the pattern matches, whether or not later ones match as well:
    more than one match is not an error.  It raises the not-found error when
    no entity matches, and the no-entities error when the store is empty. *)
Theorem get_returns_first_match (cls : ModelClass) (w : world) ll lk es :
  iterates (backend cls) (heap w) (state cls) es ->
  heap w !! ll = Some (Obj lk) -> lk !! idAttribute (backend cls) = None ->
  (es = [] -> Model.get cls (VRef ll) w = Throw (Model.no_entities cls))
  ∧ (forall pre l rec post,
       es = pre ++ VRef l :: post ->
       Forall (unmatched (heap w) lk) pre ->
       heap w !! l = Some (Obj rec) -> matches lk rec ->
       Model.get cls (VRef ll) w
       = Ok (VRef (length (heap w)),
             set_heap (heap w ++ [instance_of cls (VRef l) rec]) (mark w)))
  ∧ (es ≠ [] -> Forall (unmatched (heap w) lk) es ->
     Model.get cls (VRef ll) w = Throw Model.not_found).
Proof.
  intros Hit Hll Hnoid.
  destruct (get_reaches_loop cls w ll lk es Hit Hll Hnoid)
    as (la & xs & gv & Hla & Hlen & Hgv & Hempty & Hloop).
  split; [|split].
  - intros ->. apply Hempty. by destruct xs.
  - intros pre l rec post -> Hpre Hl Hm.
    rewrite Hloop by (intros ->; rewrite length_app in Hlen; simpl in Hlen; lia).
    rewrite (get_loop_found cls (mark w) ll la lk xs (pre ++ VRef l :: post) gv
               Hll Hla Hlen Hgv (length pre) 0%nat (S (length xs)) l rec).
    + exact (new_instance_record cls (mark w) l rec Hl).
    + rewrite Hlen, length_app. simpl. lia.
    + simpl. by rewrite list_lookup_middle.
    + exact Hl.
    + exact Hm.
    + intros j Hj.
      destruct (lookup_lt_is_Some_2 pre j) as [e He]; [lia|].
      destruct (proj1 (Forall_lookup _ _) Hpre j e He) as (l' & rec' & -> & Hl' & Hnm).
      exists l', rec'. split; [|done]. simpl. by apply lookup_app_l_Some.
  - intros Hne Hall.
    assert (Hxs : xs ≠ []) by (intros ->; by destruct es).
    rewrite (Hloop Hxs).
    destruct es as [|e0 es'] using rev_ind; [done|]. clear IHes'.
    apply (get_loop_not_found cls (mark w) ll la lk xs (es' ++ [e0]) gv
             Hll Hla Hlen Hgv (length es') 0%nat (S (length xs))).
    + rewrite Hlen, length_app. simpl. lia.
    + rewrite length_app. simpl. lia.
    + intros j _ Hj.
      destruct (lookup_lt_is_Some_2 _ j Hj) as [e He].
      destruct (proj1 (Forall_lookup _ _) Hall j e He) as (l' & rec' & -> & Hl' & Hnm).
      by exists l', rec'.
Qed.

Lemma get_returns_first_match_witness :
  Model.get (book_class defaultOpts (VRef 2)) (VRef 5) (empty_world same_name_heap)
  = Ok (VRef 8,
        set_heap (same_name_heap
                  ++ [instance_of (book_class defaultOpts (VRef 2)) (VRef 3) record_A])
                 (mark (empty_world same_name_heap))).
Proof.
  assert (Hit : iterates defaultOpts same_name_heap (VRef 2) [VRef 3; VRef 4]).
  { exists 0%nat, [VNum 0; VNum 1]. split.
    - exists 2%nat, (<["itemsById" := VRef 1]> {["items" := VRef 0]}).
      repeat split; reflexivity.
    - exists 1%nat, (<["1" := VRef 4]> {["0" := VRef 3]}). split.
      + exists 2%nat, (<["itemsById" := VRef 1]> {["items" := VRef 0]}).
        repeat split; reflexivity.
      + repeat constructor; [by exists "0" | by exists "1"]. }
  apply (proj1 (proj2 (get_returns_first_match (book_class defaultOpts (VRef 2))
                         (empty_world same_name_heap) 5%nat {["name" := VStr "A"]}
                         [VRef 3; VRef 4] Hit eq_refl eq_refl))
           [] 3%nat record_A [VRef 4]).
  - reflexivity.
  - constructor.
  - reflexivity.
  - by apply map_Forall_singleton.
Defined.

(** C3, as stated, fails: the pattern [{name: "A"}] matches both books of
    the store, and [get] returns an instance instead of raising an error. *)
Lemma get_ambiguous_counterexample :
  matches {["name" := VStr "A"]} record_A
  ∧ matches {["name" := VStr "A"]} (<["name" := VStr "A"]> {["id" := VNum 1]})
  ∧ ¬ get_rejects_ambiguity (book_class defaultOpts (VRef 2)) (VRef 5)
        (empty_world same_name_heap).
Proof.
  split; [|split].
  - by apply map_Forall_singleton.
  - by apply map_Forall_singleton.
  - unfold get_rejects_ambiguity. vm_compute. tauto.
Qed.

(** * Many-to-many reconciliation in Model.prototype.update *)

Lemma reconcile_run this key cur new w :
  Model.reconcile this key cur new w
  = Ok (tt, set_rel_calls
              (rel_calls w
               ++ (if bool_decide (filter (fun x => x ∉ new) cur = []) then []
                   else [RelRemove this key (filter (fun x => x ∉ new) cur)])
               ++ (if bool_decide (filter (fun x => x ∉ cur) new = []) then []
                   else [RelAdd this key (filter (fun x => x ∉ cur) new)])) w).
Proof.
  unfold Model.reconcile, Utils.arrayDiffActions.
  set (del := filter (fun x => x ∉ new) cur).
  set (add := filter (fun x => x ∉ cur) new).
  destruct del as [|d del'], add as [|a add']; simpl;
    unfold bind, Model.record_call, set_rel_calls; simpl;
    rewrite ?app_nil_r, <- ?app_assoc; try reflexivity.
  by destruct w.
Qed.


(** C7. The many-to-many arm of [update] records the removal of the
    current identifiers that are not among the new ones before the addition
    of the new ones that are not current, each only when there is something
    to remove or to add; applied in that order to the current identifiers,
    the calls leave exactly the new identifiers related.  For current
    [[1, 2, 3]] and the replacement [[2, 3, 4]], [update] records one removal
    (of 1), then one addition (of 4), queues one UPDATE, and the related
    identifiers become [[2, 3, 4]]. *)
Theorem update_reconciles_many_to_many :
  (forall this key cur new w,
     exists calls,
       Model.reconcile this key cur new w
       = Ok (tt, set_rel_calls (rel_calls w ++ calls) w)
       /\ (filter (fun x => x ∉ new) cur ≠ [] ->
           filter (fun x => x ∉ cur) new ≠ [] ->
           calls = [RelRemove this key (filter (fun x => x ∉ new) cur);
                    RelAdd this key (filter (fun x => x ∉ cur) new)])
       /\ (forall x, x ∈ foldl apply_rel_call cur calls <-> x ∈ new))
  /\ value_of (replace_authors (empty_world replacement_heap))
     = Ok ([RelRemove (VRef 4) "authors" [VNum 1];
            RelAdd (VRef 4) "authors" [VNum 4]], [UPDATE])
  /\ foldl apply_rel_call [VNum 1; VNum 2; VNum 3]
       [RelRemove (VRef 4) "authors" [VNum 1]; RelAdd (VRef 4) "authors" [VNum 4]]
     = [VNum 2; VNum 3; VNum 4].
Proof.
  split; [|split; vm_compute; reflexivity].
  intros this key cur new w. eexists. split; [apply reconcile_run|].
  set (del := filter (fun x => x ∉ new) cur).
  set (add := filter (fun x => x ∉ cur) new).
  split.
  - intros Hdel Hadd. by rewrite !bool_decide_eq_false_2.
  - intros x.
    assert (Hdel : forall y, y ∈ del <-> y ∈ cur /\ y ∉ new)
      by (intros y; unfold del; rewrite list_elem_of_filter; tauto).
    assert (Hadd : forall y, y ∈ add <-> y ∈ new /\ y ∉ cur)
      by (intros y; unfold add; rewrite list_elem_of_filter; tauto).
    assert (Hgoal : x ∈ filter (fun y => y ∉ del) cur ++ add <-> x ∈ new).
    { rewrite elem_of_app, list_elem_of_filter, Hdel, Hadd.
      destruct (decide (x ∈ cur)), (decide (x ∈ new)); tauto. }
    destruct (decide (del = [])) as [Hd|Hd], (decide (add = [])) as [Ha|Ha];
      rewrite ?(bool_decide_eq_true_2 _ Hd), ?(bool_decide_eq_false_2 _ Hd),
              ?(bool_decide_eq_true_2 _ Ha), ?(bool_decide_eq_false_2 _ Ha);
      simpl; fold del; fold add.
    + rewrite Hd, Ha in Hgoal. simpl in Hgoal. rewrite app_nil_r in Hgoal.
      rewrite <- Hgoal, list_elem_of_filter. split; [|tauto].
      intros Hx. split; [apply not_elem_of_nil|done].
    + rewrite Hd in Hgoal. rewrite <- Hgoal, !elem_of_app, list_elem_of_filter.
      split; [|tauto]. intros [Hx|Hx]; [left|by right].
      split; [apply not_elem_of_nil|done].
    + rewrite Ha, app_nil_r in Hgoal. exact Hgoal.
    + exact Hgoal.
Qed.

Lemma update_reconciles_many_to_many_witness :
  exists calls,
    Model.reconcile (VRef 4) "authors" [VNum 1; VNum 2; VNum 3] [VNum 2; VNum 3; VNum 4]
      (empty_world replacement_heap)
    = Ok (tt, set_rel_calls ([] ++ calls) (empty_world replacement_heap))
    /\ calls = [RelRemove (VRef 4) "authors" [VNum 1]; RelAdd (VRef 4) "authors" [VNum 4]].
Proof.
  destruct (proj1 update_reconciles_many_to_many (VRef 4) "authors"
              [VNum 1; VNum 2; VNum 3] [VNum 2; VNum 3; VNum 4]
              (empty_world replacement_heap))
    as (calls & Hrun & Horder & _).
  exists calls. split; [exact Hrun|].
  apply Horder; vm_compute; discriminate.
Defined.

(** * Model.getNextState *)

Lemma store_only_ret {A} (a : A) : store_only (ret a).
Proof. by intros [h u c r f]. Qed.

Lemma store_only_throw {A} e : store_only (throw e : M A).
Proof. done. Qed.

Lemma store_only_bind {A B} (m : M A) (k : A -> M B) :
  store_only m -> (forall a, store_only (k a)) -> store_only (bind m k).
Proof.
  intros Hm Hk w. unfold bind. rewrite (Hm w).
  destruct (m (empty_world (heap w))) as [[a w0]|e]; [|done].
  rewrite (Hk a (set_heap (heap w0) w)), (Hk a w0). simpl.
  by destruct (k a (empty_world (heap w0))) as [[c w1]|e].
Qed.

Lemma store_only_alloc c : store_only (alloc c).
Proof. done. Qed.

Lemma store_only_write l c : store_only (write l c).
Proof. done. Qed.

Lemma store_only_deref l : store_only (deref l).
Proof.
  intros [h u c r a]. unfold deref. simpl. by destruct (h !! l).
Qed.

Create HintDb store_only.
#[local] Hint Resolve store_only_ret store_only_throw store_only_alloc
  store_only_write store_only_deref : store_only.

Ltac store_only_step :=
  lazymatch goal with
  | |- store_only (bind _ _) => apply store_only_bind; [|intros]
  | |- store_only (match ?x with _ => _ end) => destruct x
  | |- store_only _ => solve [eauto with store_only]
  end.

Ltac store_only_tac := repeat store_only_step.

Lemma store_only_to_key v : store_only (to_key v).
Proof. unfold to_key. store_only_tac. Qed.
#[local] Hint Resolve store_only_to_key : store_only.

Lemma store_only_get_prop v k : store_only (get_prop v k).
Proof. unfold get_prop. store_only_tac. Qed.
#[local] Hint Resolve store_only_get_prop : store_only.

Lemma store_only_has_own v k : store_only (has_own v k).
Proof. unfold has_own. store_only_tac. Qed.
#[local] Hint Resolve store_only_has_own : store_only.

Lemma store_only_get_index v id : store_only (get_index v id).
Proof. unfold get_index. store_only_tac. Qed.

Lemma store_only_set_prop v k x : store_only (set_prop v k x).
Proof. unfold set_prop. store_only_tac. Qed.
#[local] Hint Resolve store_only_get_index store_only_set_prop : store_only.

Lemma store_only_set_index v id x : store_only (set_index v id x).
Proof. unfold set_index. store_only_tac. Qed.

Lemma store_only_delete_prop v k : store_only (delete_prop v k).
Proof. unfold delete_prop. store_only_tac. Qed.
#[local] Hint Resolve store_only_set_index store_only_delete_prop : store_only.

Lemma store_only_delete_index v id : store_only (delete_index v id).
Proof. unfold delete_index. store_only_tac. Qed.

Lemma store_only_own_props v : store_only (own_props v).
Proof. unfold own_props. store_only_tac. Qed.
#[local] Hint Resolve store_only_delete_index store_only_own_props : store_only.

Lemma store_only_assign_new a c : store_only (assign_new a c).
Proof. unfold assign_new. store_only_tac. Qed.

Lemma store_only_assign_to a c : store_only (assign_to a c).
Proof. unfold assign_to. store_only_tac. Qed.

Lemma store_only_arr_elems v : store_only (arr_elems v).
Proof. unfold arr_elems. store_only_tac. Qed.

Lemma store_only_arr_write v xs : store_only (arr_write v xs).
Proof. unfold arr_write. store_only_tac. Qed.
#[local] Hint Resolve store_only_assign_new store_only_assign_to
  store_only_arr_elems store_only_arr_write : store_only.

Lemma store_only_push a x : store_only (push a x).
Proof. unfold push. store_only_tac. Qed.

Lemma store_only_concat a x : store_only (concat a x).
Proof. unfold concat. store_only_tac. Qed.

Lemma store_only_includes a x : store_only (includes a x).
Proof. unfold includes. store_only_tac. Qed.

Lemma store_only_indexOf a x : store_only (indexOf a x).
Proof. unfold indexOf. store_only_tac. Qed.

Lemma store_only_splice1 a i : store_only (splice1 a i).
Proof. unfold splice1. store_only_tac. Qed.

Lemma store_only_arr_get a i : store_only (arr_get a i).
Proof. unfold arr_get. store_only_tac. Qed.
#[local] Hint Resolve store_only_push store_only_concat store_only_includes
  store_only_indexOf store_only_splice1 store_only_arr_get : store_only.

Lemma store_only_traverse {S} a (body : S -> value -> M S) n :
  (forall s x, store_only (body s x)) ->
  forall k s, store_only (traverse a n k body s).
Proof.
  intros Hbody. induction n as [|n IH]; intros k s; cbn [traverse]; store_only_tac.
Qed.

Lemma store_only_reduce {S} a (body : S -> value -> M S) s :
  (forall s x, store_only (body s x)) -> store_only (reduce a body s).
Proof.
  intros Hbody. unfold reduce. store_only_tac. by apply store_only_traverse.
Qed.

Lemma store_only_forEach a body :
  (forall x, store_only (body x)) -> store_only (forEach a body).
Proof. intros Hbody. unfold forEach. apply store_only_reduce. eauto. Qed.

Lemma store_only_map_st {S} a (cb : S -> value -> M (S * value)) s :
  (forall s x, store_only (cb s x)) -> store_only (map_st a cb s).
Proof.
  intros Hcb. unfold map_st. store_only_tac.
  apply store_only_reduce. intros [s0 acc] x. store_only_tac.
Qed.

Lemma store_only_map_arr a cb :
  (forall x, store_only (cb x)) -> store_only (map_arr a cb).
Proof.
  intros Hcb. unfold map_arr. store_only_tac.
  apply store_only_map_st. intros _ x. store_only_tac.
Qed.

Lemma store_only_filter_arr a cb :
  (forall x, store_only (cb x)) -> store_only (filter_arr a cb).
Proof.
  intros Hcb. unfold filter_arr. store_only_tac.
  apply store_only_reduce. intros acc x. store_only_tac.
Qed.

Lemma store_only_mapM {A B} (f : A -> M B) xs :
  (forall x, store_only (f x)) -> store_only (mapM f xs).
Proof. intros Hf. induction xs as [|x xs IH]; cbn [mapM]; store_only_tac. Qed.

Lemma store_only_foldM {S A} (f : S -> A -> M S) xs :
  (forall s x, store_only (f s x)) -> forall s, store_only (foldM f xs s).
Proof.
  intros Hf. induction xs as [|x xs IH]; intros s; cbn [foldM]; store_only_tac.
Qed.

Ltac store_only_go :=
  repeat (cbv beta;
    lazymatch goal with
    | |- store_only (bind _ _) => apply store_only_bind; [|intros]
    | |- store_only (match ?x with _ => _ end) => destruct x
    | |- store_only (reduce _ _ _) => apply store_only_reduce; intros
    | |- store_only (forEach _ _) => apply store_only_forEach; intros
    | |- store_only (map_st _ _ _) => apply store_only_map_st; intros
    | |- store_only (map_arr _ _) => apply store_only_map_arr; intros
    | |- store_only (filter_arr _ _) => apply store_only_filter_arr; intros
    | |- store_only (mapM _ _) => apply store_only_mapM; intros
    | |- store_only _ => solve [eauto with store_only]
    end).

Lemma store_only_find collection k v : store_only (Lodash.find collection k v).
Proof.
  unfold Lodash.find. store_only_go.
  induction a as [|x xs IH]; cbn [Lodash.find_first]; store_only_go.
  unfold Lodash.matches_property. store_only_go.
Qed.

Lemma store_only_omit object props : store_only (Lodash.omit object props).
Proof.
  unfold Lodash.omit. store_only_go.
Qed.

Lemma store_only_objectDiff target source : store_only (Utils.objectDiff target source).
Proof. unfold Utils.objectDiff. store_only_go. Qed.
#[local] Hint Resolve store_only_find store_only_omit store_only_objectDiff : store_only.

Section StoreOnly.
Variable sortByOrder : value -> value -> value -> M value.
Variable call : nat -> value -> M value.
Hypothesis sort_store_only : forall l its ords, store_only (sortByOrder l its ords).
Hypothesis call_store_only : forall f v, store_only (call f v).
Variable b : Backend.

Lemma store_only_accessId branch id : store_only (Backend.accessId b branch id).
Proof. unfold Backend.accessId. store_only_go. Qed.

Lemma store_only_accessList branch : store_only (Backend.accessList b branch).
Proof.
  unfold Backend.accessList. store_only_go. apply store_only_accessId.
Qed.

Lemma store_only_insert branch entry : store_only (Backend.insert b branch entry).
Proof. unfold Backend.insert. store_only_go. Qed.

Lemma store_only_mapFunction patcher entity :
  store_only (Backend.mapFunction call patcher entity).
Proof. unfold Backend.mapFunction. store_only_go. Qed.

Lemma store_only_update branch idArr patcher :
  store_only (Backend.update call b branch idArr patcher).
Proof.
  unfold Backend.update. store_only_go.
  all: apply store_only_mapFunction.
Qed.

Lemma store_only_order branch its ords : store_only (Backend.order sortByOrder b branch its ords).
Proof.
  unfold Backend.order. store_only_go.
  all: apply store_only_accessList.
Qed.

Lemma store_only_delete branch ids : store_only (Backend.delete b branch ids).
Proof.
  unfold Backend.delete. store_only_go.
Qed.

End StoreOnly.

Lemma store_only_getDefaultState b : store_only (Backend.getDefaultState b).
Proof. unfold Backend.getDefaultState. store_only_go. Qed.

Lemma store_only_from {A} (m : M A) w w0 :
  store_only m -> heap w0 = heap w ->
  m w = match m w0 with
        | Ok (a, w') => Ok (a, set_heap (heap w') w)
        | Throw e => Throw e
        end.
Proof.
  intros Hm Hh. rewrite (Hm w), (Hm w0), Hh.
  by destruct (m (empty_world (heap w))) as [[a w']|e].
Qed.

Lemma getDefaultState_run b w :
  Backend.getDefaultState b w
  = Ok (VRef (length (heap w) + length (default_cells b (length (heap w))) - 1),
        set_heap (heap w ++ default_cells b (length (heap w))) w).
Proof.
  unfold Backend.getDefaultState, default_cells.
  destruct (indexById b); unfold bind, alloc, set_heap; simpl;
    rewrite ?length_app, <- ?app_assoc; simpl; repeat f_equal; lia.
Qed.

Lemma foldM_app {S A} (f : S -> A -> M S) q1 q2 s w :
  foldM f (q1 ++ q2) s w = (let! s' := foldM f q1 s in foldM f q2 s') w.
Proof.
  revert s w. induction q1 as [|a q1 IH]; intros s w; [done|].
  cbn [foldM app]. unfold bind.
  destruct (f s a w) as [[s' w']|e]; [|done]. rewrite IH. reflexivity.
Qed.

(** Folding is order-sensitive, and the fold of [getNextState] goes from
    left to right: on the one-book store, creating book 1 and then deleting
    it leaves book 0 alone, while deleting book 1 and then creating it
    leaves both books. *)
Lemma fold_applies_in_order :
  value_of (fold_then_look create_then_delete (empty_world queue_heap))
  = Ok ([VNum 0], VRef 3, VUndef)
  /\ value_of (fold_then_look delete_then_create (empty_world queue_heap))
     = Ok ([VNum 0; VNum 1], VRef 3, VRef 4).
Proof. split; vm_compute; reflexivity. Qed.

(** C6. When the state of the store is undefined, [getNextState] returns
    the default empty state, newly allocated, and applies no queued action:
    the queue is neither read nor changed.  Otherwise it folds the queue over
    the state from left to right, each action applied by [updateReducer] to
    the state the actions before it produced.  What it returns and what it
    does to the store depend on the state, the queue and the store alone, and
    nothing else of the session changes.  Applying an action is running the
    operation of the record store that its type names, on the state folded
    so far and the payload: [insert] for CREATE, [update] with the [idArr]
    and the [updater] of the payload for UPDATE, [order] for ORDER, [delete]
    for DELETE, and nothing for any other type.  So a queue that holds one
    CREATE yields, for an indexed state in copy-on-write mode, a new state
    with the identifier of the record appended to the order sequence and the
    record added to the index map. *)
Theorem getNextState_folds_queue
    (sortByOrder : value -> value -> value -> M value) (call : nat -> value -> M value)
    (cls : ModelClass) :
  (forall l its ords, store_only (sortByOrder l its ords)) ->
  (forall f v, store_only (call f v)) ->
  (state cls = VUndef -> forall w,
     Model.getNextState sortByOrder call cls w
     = Ok (VRef (length (heap w)
                 + length (default_cells (backend cls) (length (heap w))) - 1),
           set_heap (heap w ++ default_cells (backend cls) (length (heap w))) w))
  /\ (state cls ≠ VUndef -> forall w,
        Model.getNextState sortByOrder call cls w
        = foldM (Model.updateReducer sortByOrder call cls) (updates w) (state cls) w)
  /\ (forall q a s w,
        foldM (Model.updateReducer sortByOrder call cls) (q ++ [a]) s w
        = (let! s' := foldM (Model.updateReducer sortByOrder call cls) q s in
           Model.updateReducer sortByOrder call cls s' a) w)
  /\ (forall w,
        Model.getNextState sortByOrder call cls w
        = match Model.getNextState sortByOrder call cls
                  (set_updates (updates w) (empty_world (heap w))) with
          | Ok (s, w') => Ok (s, set_heap (heap w') w)
          | Throw e => Throw e
          end)
  /\ (forall s a w,
        Model.updateReducer sortByOrder call cls s a w
        = match a_type a with
          | CREATE => Backend.insert (backend cls) s (a_payload a) w
          | UPDATE =>
              (let! idArr := get_prop (a_payload a) "idArr" in
               let! updater := get_prop (a_payload a) "updater" in
               Backend.update call (backend cls) s idArr updater) w
          | ORDER => Backend.order sortByOrder (backend cls) s (a_payload a) VUndef w
          | DELETE => Backend.delete (backend cls) s (a_payload a) w
          | OTHER _ => Ok (s, w)
          end)
  /\ (forall w la xs lm m le rec k,
        indexById (backend cls) = true -> withMutations (backend cls) = false ->
        arrName (backend cls) ≠ mapName (backend cls) ->
        order_sequence (backend cls) (heap w) (state cls) la xs ->
        index_map (backend cls) (heap w) (state cls) lm m ->
        heap w !! le = Some (Obj rec) ->
        key_of (default VUndef (rec !! idAttribute (backend cls))) = Some k ->
        updates w = [Action CREATE (VRef le)] ->
        exists w' lb' la' lm',
          Model.getNextState sortByOrder call cls w = Ok (VRef lb', w')
          /\ (length (heap w) <= lb')%nat
          /\ order_sequence (backend cls) (heap w') (VRef lb') la'
               (xs ++ [default VUndef (rec !! idAttribute (backend cls))])
          /\ index_map (backend cls) (heap w') (VRef lb') lm' (<[k := VRef le]> m)
          /\ preserved (heap w) (heap w')).
Proof.
  intros Hsort Hcall.
  assert (Hundef : state cls = VUndef -> forall w,
            Model.getNextState sortByOrder call cls w
            = Backend.getDefaultState (backend cls) w).
  { intros Hst w. unfold Model.getNextState. by rewrite bool_decide_eq_true_2. }
  assert (Hdef : state cls ≠ VUndef -> forall w,
            Model.getNextState sortByOrder call cls w
            = foldM (Model.updateReducer sortByOrder call cls) (updates w) (state cls) w).
  { intros Hst w. unfold Model.getNextState. by rewrite bool_decide_eq_false_2. }
  assert (Hstep : forall s a, store_only (Model.updateReducer sortByOrder call cls s a)).
  { intros s a. unfold Model.updateReducer. destruct (a_type a).
    - apply store_only_insert.
    - store_only_go. by apply store_only_update.
    - by apply store_only_order.
    - apply store_only_delete.
    - apply store_only_ret. }
  split; [|split; [|split; [|split; [|split]]]].
  - intros Hst w. rewrite (Hundef Hst). apply getDefaultState_run.
  - exact Hdef.
  - intros q a s w. rewrite foldM_app. unfold bind.
    destruct (foldM _ q s w) as [[s' w']|e]; [|done].
    cbn [foldM]. unfold bind.
    by destruct (Model.updateReducer sortByOrder call cls s' a w') as [[s'' w'']|e].
  - intros w. destruct (decide (state cls = VUndef)) as [Hst|Hst].
    + rewrite !(Hundef Hst).
      by apply store_only_from; [apply store_only_getDefaultState|].
    + rewrite !(Hdef Hst). cbn [updates set_updates].
      by apply store_only_from; [apply store_only_foldM|].
  - intros s a w. unfold Model.updateReducer. by destruct (a_type a).
  - intros w la xs lm m le rec k Hi Hcow Hne
      (lb & fs & Hst & Hb & Ha & Hxs) (lb0 & fs0 & Hst0 & Hb0 & Hmn & Hmm) He Hk Hq.
    rewrite Hst in Hst0. injection Hst0 as <-.
    rewrite Hb in Hb0. injection Hb0 as <-.
    assert (Hdefined : state cls ≠ VUndef) by (by rewrite Hst).
    rewrite (Hdef Hdefined), Hq, Hst. cbn [foldM].
    unfold Model.updateReducer. cbn [a_type a_payload].
    assert (H := insert_cow_cells (backend cls) w lb fs la xs lm m le rec k
                   Hi Hcow Hb Ha Hxs Hmn Hmm He Hk).
    apply wp_returns in H
      as (r & w' & Hrun & lb' & la' & lm' & -> & Hlb & Hla & Hlm & Hcell & Harr & Hmap & Hpres).
    exists w', lb', la', lm'. unfold bind. rewrite Hrun.
    split; [reflexivity|]. split; [exact Hlb|].
    split; [|split; [|exact Hpres]].
    + eexists lb', _. split; [reflexivity|]. split; [exact Hcell|]. split; [|exact Harr].
      rewrite lookup_insert_ne by done. apply lookup_singleton_eq.
    + eexists lb', _. split; [reflexivity|]. split; [exact Hcell|]. split; [|exact Hmap].
      apply lookup_insert_eq.
Qed.

Lemma getNextState_folds_queue_witness :
  Model.getNextState keep_order identity_call (book_class defaultOpts (VRef 2))
    (set_updates create_then_delete (empty_world queue_heap))
  = foldM (Model.updateReducer keep_order identity_call (book_class defaultOpts (VRef 2)))
      create_then_delete (VRef 2)
      (set_updates create_then_delete (empty_world queue_heap))
  /\ (exists w' lb' la' lm',
        Model.getNextState keep_order identity_call (book_class defaultOpts (VRef 2))
          (set_updates [Action CREATE (VRef 4)] (empty_world queue_heap))
        = Ok (VRef lb', w')
        /\ (6 <= lb')%nat
        /\ order_sequence defaultOpts (heap w') (VRef lb') la' [VNum 0; VNum 1]
        /\ index_map defaultOpts (heap w') (VRef lb') lm'
             (<["1" := VRef 4]> {["0" := VRef 3]})
        /\ preserved queue_heap (heap w'))
  /\ value_of (fold_then_look create_then_delete (empty_world queue_heap))
     = Ok ([VNum 0], VRef 3, VUndef)
  /\ value_of (fold_then_look delete_then_create (empty_world queue_heap))
     = Ok ([VNum 0; VNum 1], VRef 3, VRef 4).
Proof.
  assert (H := getNextState_folds_queue keep_order identity_call
                 (book_class defaultOpts (VRef 2))
                 (fun l _ _ => store_only_ret l)
                 (fun _ v => store_only_ret v)).
  destruct H as (_ & Hfold & _ & _ & _ & Hcreate).
  split; [|split; [|exact fold_applies_in_order]].
  - apply Hfold. discriminate.
  - apply (Hcreate (set_updates [Action CREATE (VRef 4)] (empty_world queue_heap))
             0%nat [VNum 0] 1%nat {["0" := VRef 3]} 4%nat record_B "1").
    + reflexivity.
    + reflexivity.
    + discriminate.
    + exists 2%nat, (<["itemsById" := VRef 1]> {["items" := VRef 0]}).
      repeat split; reflexivity.
    + exists 2%nat, (<["itemsById" := VRef 1]> {["items" := VRef 0]}).
      repeat split; reflexivity.
    + reflexivity.
    + reflexivity.
    + reflexivity.
Defined.

(** * Backend.update *)

Lemma filter_differs_empty (src tgt : gmap string value) :
  filter (fun kv => tgt !! kv.1 ≠ Some kv.2) src = ∅ <-> src ∪ tgt = tgt.
Proof.
  rewrite map_empty_filter. split.
  - intros Hall. apply map_subseteq_union, map_subseteq_spec.
    intros k v Hk. specialize (Hall k v Hk). simpl in Hall.
    by destruct (decide (tgt !! k = Some v)).
  - intros Hun k v Hk. simpl. intros Hne. apply Hne.
    rewrite <- Hun. by apply lookup_union_Some_l.
Qed.

Lemma objectDiff_objs w lt tgt ls src :
  heap w !! lt = Some (Obj tgt) -> heap w !! ls = Some (Obj src) ->
  Utils.objectDiff (VRef lt) (VRef ls) w
  = if decide (src ∪ tgt = tgt) then Ok (VNull, w)
    else Ok (VRef (length (heap w)),
             set_heap (heap w ++ [Obj (filter (fun kv => tgt !! kv.1 ≠ Some kv.2) src)]) w).
Proof.
  intros Ht Hs. unfold Utils.objectDiff. unfold bind at 1.
  rewrite (own_props_obj _ _ _ Hs).
  destruct (decide (src = ∅)) as [->|Hne].
  - rewrite bool_decide_eq_true_2 by done.
    rewrite decide_True; [done|]. by rewrite (left_id_L ∅ (∪)).
  - rewrite bool_decide_eq_false_2 by done.
    unfold bind at 1. rewrite (own_props_obj _ _ _ Ht).
    destruct (decide (src ∪ tgt = tgt)) as [Hsame|Hdiff].
    + rewrite bool_decide_eq_true_2; [done|]. by apply filter_differs_empty.
    + rewrite bool_decide_eq_false_2; [done|]. by rewrite filter_differs_empty.
Qed.

Lemma mapFunction_obj call w le rec lp patch :
  heap w !! le = Some (Obj rec) -> heap w !! lp = Some (Obj patch) ->
  Backend.mapFunction call (VRef lp) (VRef le) w
  = if decide (patch ∪ rec = rec) then Ok (VRef le, w)
    else Ok (VRef (S (length (heap w))),
             set_heap (heap w
                       ++ [Obj (filter (fun kv => rec !! kv.1 ≠ Some kv.2) patch);
                           Obj (patch ∪ rec)]) w).
Proof.
  intros He Hp. unfold Backend.mapFunction. unfold bind at 1.
  rewrite (objectDiff_objs w le rec lp patch He Hp).
  destruct (decide (patch ∪ rec = rec)); [done|].
  cbn [truthy].
  rewrite (assign_new_objs _ le rec lp patch) by (wp_simpl; eauto with heap).
  wp_simpl. rewrite length_app. simpl.
  rewrite Nat.add_1_r. by rewrite <- app_assoc.
Qed.

Lemma traverse_inv {S} (I : nat -> S -> world -> Prop) la xs (body : S -> value -> M S) n :
  (forall k s w, I k s w -> heap w !! la = Some (Arr xs)) ->
  (forall k s w x, I k s w -> xs !! k = Some x -> wp (body s x) (I (Datatypes.S k)) no_error w) ->
  forall k s w, (k + n <= length xs)%nat -> I k s w ->
  wp (traverse (VRef la) n k body s) (I (k + n)%nat) no_error w.
Proof.
  intros Harr Hbody. induction n as [|n IH]; intros k s w Hk HI.
  - rewrite Nat.add_0_r. by apply wp_ret.
  - cbn [traverse]. apply wp_bind.
    eapply wp_run; [apply arr_elems_arr; eauto|].
    destruct (lookup_lt_is_Some_2 xs k) as [x Hx]; [lia|]. rewrite Hx.
    apply wp_bind. eapply wp_mono; [by eapply Hbody| |done].
    intros s' w' HI'. cbv beta.
    replace (k + Datatypes.S n)%nat with (Datatypes.S k + n)%nat by lia.
    apply IH; [lia|done].
Qed.

Lemma reduce_inv {S} (I : nat -> S -> world -> Prop) la xs (body : S -> value -> M S) s w :
  (forall k s w, I k s w -> heap w !! la = Some (Arr xs)) ->
  (forall k s w x, I k s w -> xs !! k = Some x -> wp (body s x) (I (Datatypes.S k)) no_error w) ->
  I 0%nat s w ->
  wp (reduce (VRef la) body s) (I (length xs)) no_error w.
Proof.
  intros Harr Hbody HI. unfold reduce. apply wp_bind.
  eapply wp_run; [apply arr_elems_arr; eauto|].
  by apply (traverse_inv I la xs body (length xs) Harr Hbody 0%nat s w).
Qed.

(** A traversal whose callback throws at index [j], the turns before it
    keeping the invariant, throws what the callback throws. *)
Lemma traverse_throws {S} (I : nat -> S -> world -> Prop) (E : error -> Prop) la xs
    (body : S -> value -> M S) j :
  (forall k s w, I k s w -> heap w !! la = Some (Arr xs)) ->
  (forall k s w x, (k < j)%nat -> I k s w -> xs !! k = Some x ->
     wp (body s x) (I (Datatypes.S k)) no_error w) ->
  (forall s w x, I j s w -> xs !! j = Some x -> wp (body s x) (fun _ _ => False) E w) ->
  forall n k s w, (k <= j)%nat -> (j < k + n)%nat -> (k + n <= length xs)%nat -> I k s w ->
  wp (traverse (VRef la) n k body s) (fun _ _ => False) E w.
Proof.
  intros Harr Hbody Hthrow. induction n as [|n IH]; intros k s w Hkj Hjn Hlen HI; [lia|].
  cbn [traverse]. apply wp_bind.
  eapply wp_run; [apply arr_elems_arr; eauto|].
  destruct (lookup_lt_is_Some_2 xs k) as [x Hx]; [lia|]. rewrite Hx.
  apply wp_bind.
  destruct (decide (k = j)) as [->|Hne].
  - eapply wp_mono; [by eapply Hthrow| |done]. by intros ? ? [].
  - eapply wp_mono; [eapply Hbody; [|done..]; lia| |by intros ? []].
    intros s' w' HI'. cbv beta. apply IH; [lia|lia|lia|done].
Qed.

Lemma reduce_throws {S} (I : nat -> S -> world -> Prop) (E : error -> Prop) la xs
    (body : S -> value -> M S) j s w :
  (forall k s w, I k s w -> heap w !! la = Some (Arr xs)) ->
  (forall k s w x, (k < j)%nat -> I k s w -> xs !! k = Some x ->
     wp (body s x) (I (Datatypes.S k)) no_error w) ->
  (forall s w x, I j s w -> xs !! j = Some x -> wp (body s x) (fun _ _ => False) E w) ->
  (j < length xs)%nat -> I 0%nat s w ->
  wp (reduce (VRef la) body s) (fun _ _ => False) E w.
Proof.
  intros Harr Hbody Hthrow Hj HI. unfold reduce. apply wp_bind.
  eapply wp_run; [apply arr_elems_arr; eauto|].
  apply (traverse_throws I E la xs body j Harr Hbody Hthrow); [lia|lia|lia|done].
Qed.

Lemma wp_throws {A} (m : M A) e0 w :
  wp m (fun _ _ => False) (fun e => e = e0) w -> m w = Throw e0.
Proof. unfold wp. destruct (m w) as [[a w']|e]; [done|by intros ->]. Qed.

Lemma update_unfold call b branch idArr patcher :
  Backend.update call b branch idArr patcher
  = (let! returnBranch := if withMutations b then ret branch else alloc (Obj ∅) in
     if indexById b then
       (if withMutations b then ret tt
        else
          let! m := get_prop branch (mapName b) in
          let! copy := assign_new m VUndef in
          set_prop returnBranch (mapName b) copy;;;
          let! arr := get_prop branch (arrName b) in
          set_prop returnBranch (arrName b) arr);;;
       let! updatedMap := alloc (Obj ∅) in
       reduce idArr (update_reducer call b branch patcher) updatedMap;;;
       let! rm := get_prop returnBranch (mapName b) in
       let! diff := Utils.objectDiff rm updatedMap in
       if truthy diff then
         let! rm := get_prop returnBranch (mapName b) in
         assign_to rm diff;;;
         ret returnBranch
       else ret branch
     else
       let! arr := get_prop branch (arrName b) in
       let! (updated, arr') := map_st arr (update_mapper call b idArr patcher) false in
       set_prop returnBranch (arrName b) arr';;;
       ret (if updated : bool then returnBranch else branch)).
Proof. reflexivity. Qed.

(** One turn of the reduce callback on an identifier that has a record. *)
Lemma update_reducer_run call b w lb fs lm m id k le rec lp patch lu um :
  heap w !! lb = Some (Obj fs) -> fs !! mapName b = Some (VRef lm) ->
  heap w !! lm = Some (Obj m) ->
  key_of id = Some k -> m !! k = Some (VRef le) -> heap w !! le = Some (Obj rec) ->
  heap w !! lp = Some (Obj patch) -> heap w !! lu = Some (Obj um) ->
  update_reducer call b (VRef lb) (VRef lp) (VRef lu) id w
  = Ok (VRef lu,
        if decide (patch ∪ rec = rec) then w
        else set_heap (<[lu := Obj (<[k := VRef (S (length (heap w)))]> um)]>
                         (heap w
                          ++ [Obj (filter (fun kv => rec !! kv.1 ≠ Some kv.2) patch);
                              Obj (patch ∪ rec)])) w).
Proof.
  intros Hb Hmn Hm Hk Hmk He Hp Hu. unfold update_reducer.
  unfold bind at 1. rewrite (get_prop_obj w lb fs _ Hb), Hmn.
  cbn [default from_option Datatypes.id].
  unfold bind at 1. rewrite (get_index_obj w lm m id k Hm Hk (or_introl (mk_is_Some _ _ Hmk))), Hmk.
  cbn [default from_option Datatypes.id].
  unfold bind at 1. rewrite (mapFunction_obj call w le rec lp patch He Hp).
  destruct (decide (patch ∪ rec = rec)) as [Hsame|Hdiff].
  - unfold bind at 1. rewrite (get_prop_obj w lb fs _ Hb), Hmn.
    cbn [default from_option Datatypes.id].
    unfold bind at 1. rewrite (get_index_obj w lm m id k Hm Hk (or_introl (mk_is_Some _ _ Hmk))), Hmk.
    cbn [default from_option Datatypes.id].
    unfold strict_eq. rewrite bool_decide_eq_true_2 by done. reflexivity.
  - set (w1 := set_heap _ w).
    assert (Hold : forall l c, heap w !! l = Some c -> heap w1 !! l = Some c).
    { intros l c Hl. unfold w1. wp_simpl. rewrite lookup_app_l; [done|].
      by eapply lookup_lt_Some. }
    unfold bind at 1. rewrite (get_prop_obj w1 lb fs _ (Hold _ _ Hb)), Hmn.
    cbn [default from_option Datatypes.id].
    unfold bind at 1. rewrite (get_index_obj w1 lm m id k (Hold _ _ Hm) Hk (or_introl (mk_is_Some _ _ Hmk))), Hmk.
    cbn [default from_option Datatypes.id].
    unfold strict_eq. rewrite bool_decide_eq_false_2; last first.
    { intros [= Heq]. apply lookup_lt_Some in He. lia. }
    unfold bind at 1. unfold set_index, bind. rewrite (to_key_prim w1 id k Hk).
    rewrite (set_prop_obj w1 lu um _ _ (Hold _ _ Hu)).
    unfold ret, w1. reflexivity.
Qed.

Lemma objectDiff_empty_source w target ls :
  heap w !! ls = Some (Obj ∅) -> Utils.objectDiff target (VRef ls) w = Ok (VNull, w).
Proof.
  intros Hs. unfold Utils.objectDiff. unfold bind at 1.
  by rewrite (own_props_obj _ _ _ Hs).
Qed.

Lemma heap_new_lookup (h cs : list cell) i :
  (h ++ cs) !! (length h + i)%nat = cs !! i.
Proof. rewrite lookup_app_r by lia. f_equal. lia. Qed.

Lemma insert_last2 (h : list cell) x y c :
  <[length h := c]> ((h ++ [x]) ++ [y]) = (h ++ [c]) ++ [y].
Proof.
  rewrite <- !app_assoc. simpl.
  rewrite (insert_app_r_alt h _ (length h)) by lia.
  by rewrite Nat.sub_diag.
Qed.

Lemma update_indexed_noop call b w lb fs lm m li ids lp patch :
  indexById b = true ->
  heap w !! lb = Some (Obj fs) -> fs !! mapName b = Some (VRef lm) ->
  heap w !! lm = Some (Obj m) ->
  heap w !! li = Some (Arr ids) -> heap w !! lp = Some (Obj patch) ->
  Forall (fun id => ∃ k l rec, key_of id = Some k ∧ m !! k = Some (VRef l) ∧
                               heap w !! l = Some (Obj rec) ∧ patch ∪ rec = rec) ids ->
  wp (Backend.update call b (VRef lb) (VRef li) (VRef lp))
     (fun r w' => r = VRef lb /\ preserved (heap w) (heap w')) no_error w.
Proof.
  intros Hidx Hb Hmn Hm Hli Hp Hall.
  rewrite update_unfold, Hidx.
  assert (Hloop : forall w1 lu,
    preserved (heap w) (heap w1) -> heap w1 !! lu = Some (Obj ∅) ->
    wp (reduce (VRef li) (update_reducer call b (VRef lb) (VRef lp)) (VRef lu))
       (fun s w' => w' = w1) no_error w1).
  { intros w1 lu Hpres Hlu.
    eapply wp_mono;
      [apply (reduce_inv (fun _ s w' => s = VRef lu /\ w' = w1) li ids)| |done].
    - intros _ s w' [_ ->]. by apply Hpres.
    - intros k s w' id [-> ->] Hid.
      destruct (proj1 (Forall_lookup _ _) Hall k id Hid)
        as (key & l & rec & Hk & Hmk & Hl & Hsame).
      eapply wp_run.
      + apply (update_reducer_run call b w1 lb fs lm m id key l rec lp patch lu ∅);
          eauto.
      + by rewrite decide_True.
    - done.
    - by intros s w' [_ ->]. }
  destruct (withMutations b).
  - apply wp_bind, wp_ret. apply wp_bind, wp_ret.
    wp_next alloc_run.
    apply wp_bind. eapply wp_mono; [apply Hloop| |done]; wp_simpl; eauto with heap.
    intros _ w' ->.
    wp_next get_prop_obj. rewrite Hmn. cbn [default from_option Datatypes.id].
    wp_next objectDiff_empty_source. cbn [truthy].
    apply wp_ret. wp_simpl. eauto with heap.
  - wp_next alloc_run.
    apply wp_bind. wp_next get_prop_obj. rewrite Hmn. cbn [default from_option Datatypes.id].
    wp_next assign_new_copy.
    wp_next set_prop_obj. rewrite insert_last2.
    wp_next get_prop_obj.
    wp_prim set_prop_obj. rewrite insert_last2.
    wp_next alloc_run.
    apply wp_bind. eapply wp_mono; [apply Hloop| |done]; wp_simpl; eauto 10 with heap.
    intros _ w' ->.
    wp_next get_prop_obj.
    wp_next objectDiff_empty_source. cbn [truthy].
    apply wp_ret. wp_simpl. eauto 10 with heap.
Qed.

Lemma includes_arr w li ids x :
  heap w !! li = Some (Arr ids) ->
  includes (VRef li) x w = Ok (bool_decide (x ∈ ids), w).
Proof. intros Hli. unfold includes, bind. by rewrite (arr_elems_arr _ _ _ Hli). Qed.

(** One turn of the map callback on a record the patch does not change. *)
Lemma update_mapper_keeps call b w li ids lp patch l rec updated :
  heap w !! li = Some (Arr ids) -> heap w !! lp = Some (Obj patch) ->
  heap w !! l = Some (Obj rec) ->
  (default VUndef (rec !! idAttribute b) ∈ ids -> patch ∪ rec = rec) ->
  update_mapper call b (VRef li) (VRef lp) updated (VRef l) w = Ok ((updated, VRef l), w).
Proof.
  intros Hli Hp Hl Hsame. unfold update_mapper.
  unfold bind at 1. rewrite (get_prop_obj w l rec _ Hl).
  unfold bind at 1. rewrite (includes_arr w li ids _ Hli).
  destruct (decide (default VUndef (rec !! idAttribute b) ∈ ids)) as [Hin|Hout].
  - rewrite bool_decide_eq_true_2 by done.
    unfold bind at 1. rewrite (mapFunction_obj call w l rec lp patch Hl Hp).
    rewrite decide_True by auto.
    unfold bind at 1. rewrite (mapFunction_obj call w l rec lp patch Hl Hp).
    rewrite decide_True by auto.
    unfold strict_eq. by rewrite bool_decide_eq_true_2.
  - by rewrite bool_decide_eq_false_2.
Qed.

Lemma update_flat_noop call b w lb fs la items li ids lp patch :
  indexById b = false ->
  heap w !! lb = Some (Obj fs) -> fs !! arrName b = Some (VRef la) ->
  heap w !! la = Some (Arr items) ->
  heap w !! li = Some (Arr ids) -> heap w !! lp = Some (Obj patch) ->
  Forall (fun e => ∃ l rec, e = VRef l ∧ heap w !! l = Some (Obj rec) ∧
                            (default VUndef (rec !! idAttribute b) ∈ ids ->
                             patch ∪ rec = rec)) items ->
  wp (Backend.update call b (VRef lb) (VRef li) (VRef lp))
     (fun r w' => r = VRef lb /\ (withMutations b = false -> preserved (heap w) (heap w')))
     no_error w.
Proof.
  intros Hidx Hb Han Hla Hli Hp Hall.
  rewrite update_unfold, Hidx.
  assert (Hmap : forall w1,
    preserved (heap w) (heap w1) ->
    wp (map_st (VRef la) (update_mapper call b (VRef li) (VRef lp)) false)
       (fun r w' => exists ys,
          r = (false, VRef (length (heap w1))) /\
          w' = set_heap (heap w1 ++ [Arr ys]) w1) no_error w1).
  { intros w1 Hpres. unfold map_st. apply wp_bind.
    eapply wp_mono;
      [apply (reduce_inv (fun _ (s : bool * list value) w' => s.1 = false /\ w' = w1)
                la items)| |done].
    - intros _ s w' [_ ->]. by apply Hpres.
    - intros k [u acc] w' e [Hu ->] He. simpl in Hu. subst u.
      destruct (proj1 (Forall_lookup _ _) Hall k e He) as (l & rec & -> & Hl & Hsame).
      apply wp_bind. eapply wp_run.
      + apply (update_mapper_keeps call b w1 li ids lp patch l rec false); eauto.
      + by apply wp_ret.
    - done.
    - intros [u acc] w' [Hu ->]. simpl in Hu. subst u.
      wp_next alloc_run. apply wp_ret. by exists acc. }
  destruct (withMutations b).
  - apply wp_bind, wp_ret.
    wp_next get_prop_obj. rewrite Han. cbn [default from_option Datatypes.id].
    apply wp_bind. eapply wp_mono; [apply Hmap; eauto with heap| |done].
    intros r w' (ys & -> & ->).
    wp_next set_prop_obj. by apply wp_ret.
  - wp_next alloc_run.
    wp_next get_prop_obj. rewrite Han. cbn [default from_option Datatypes.id].
    apply wp_bind. eapply wp_mono; [apply Hmap; wp_simpl; eauto with heap| |done].
    intros r w' (ys & -> & ->). wp_simpl.
    wp_next set_prop_obj. rewrite insert_last2.
    apply wp_ret. split; [done|]. intros _. wp_simpl. eauto with heap.
Qed.

Lemma lookup_insert_app_old (h cs : list cell) n x l c :
  h !! l = Some c -> l ≠ n -> <[n := x]> (h ++ cs) !! l = Some c.
Proof.
  intros Hl Hne. rewrite list_lookup_insert_ne by done.
  rewrite lookup_app_l; [done|]. by eapply lookup_lt_Some.
Qed.

Lemma lookup_insert_app_eq (h cs : list cell) n x :
  (n < length h)%nat -> <[n := x]> (h ++ cs) !! n = Some x.
Proof. intros Hn. apply list_lookup_insert_eq. rewrite length_app. lia. Qed.

Lemma lookup_insert_app_new (h cs : list cell) n x i :
  (n < length h)%nat -> <[n := x]> (h ++ cs) !! (length h + i)%nat = cs !! i.
Proof.
  intros Hn. rewrite list_lookup_insert_ne by lia. apply heap_new_lookup.
Qed.

Lemma assign_to_objs w lt tgt ls src :
  heap w !! lt = Some (Obj tgt) -> heap w !! ls = Some (Obj src) ->
  assign_to (VRef lt) (VRef ls) w
  = Ok (tt, set_heap (<[lt := Obj (src ∪ tgt)]> (heap w)) w).
Proof.
  intros Ht Hs. unfold assign_to. unfold bind at 1. rewrite (deref_ok _ _ _ Ht).
  unfold bind at 1. by rewrite (own_props_obj _ _ _ Hs).
Qed.

Lemma changes_unique h m patch k l rec :
  m !! k = Some (VRef l) -> h !! l = Some (Obj rec) ->
  changes h m patch k -> patch ∪ rec ≠ rec.
Proof.
  intros Hm Hl (l0 & rec0 & Hm0 & Hl0 & Hne).
  rewrite Hm in Hm0. injection Hm0 as <-. rewrite Hl in Hl0. by injection Hl0 as <-.
Qed.

Lemma update_progress_step call b h0 lb fs lm m ids lp patch lu side k w' id :
  (length h0 <= lu)%nat ->
  h0 !! lb = Some (Obj fs) -> fs !! mapName b = Some (VRef lm) ->
  h0 !! lm = Some (Obj m) -> h0 !! lp = Some (Obj patch) ->
  has_record h0 m id -> ids !! k = Some id ->
  update_progress h0 m patch ids lu side k (VRef lu) w' ->
  wp (update_reducer call b (VRef lb) (VRef lp) (VRef lu) id)
     (update_progress h0 m patch ids lu side (S k)) no_error w'.
Proof.
  intros Hlu Hb Hmn Hm Hp (key & l & rec & Hk & Hmk & Hl) Hid
    (_ & Hpres & Hside & um & Hum & Hentries & Hdone).
  assert (Htake : forall x, x ∈ take k ids -> x ∈ take (S k) ids).
  { intros x Hx. rewrite (take_S_r ids k id Hid). apply elem_of_app. by left. }
  assert (Hnow : id ∈ take (S k) ids).
  { rewrite (take_S_r ids k id Hid). apply elem_of_app. right. by apply list_elem_of_singleton. }
  eapply wp_run.
  { apply (update_reducer_run call b w' lb fs lm m id key l rec lp patch lu um); eauto. }
  destruct (decide (patch ∪ rec = rec)) as [Hsame|Hdiff].
  - split; [done|]. split; [done|]. split; [done|]. exists um. split; [done|]. split.
    + intros key' v Hv.
      destruct (Hentries key' v Hv) as (l' & l0 & rec0 & -> & ? & ? & ? & ? & ? & x & Hx & ?).
      exists l', l0, rec0. repeat split; try done. exists x. split; [by apply Htake|done].
    + intros j x key' Hj Hx Hkx Hch.
      destruct (decide (j = k)) as [->|Hjk]; [|apply (Hdone j x key'); [lia|done..]].
      rewrite Hid in Hx. injection Hx as <-. rewrite Hk in Hkx. injection Hkx as <-.
      by destruct (changes_unique h0 m patch key l rec Hmk Hl Hch).
  - assert (Hlt : (lu < length (heap w'))%nat) by (by eapply lookup_lt_Some).
    split; [done|]. wp_simpl. split; [|split].
    + intros l0 c0 Hl0. apply lookup_insert_app_old; [by apply Hpres|].
      apply lookup_lt_Some in Hl0. lia.
    + eapply Forall_impl; [exact Hside|]. intros [l0 c0] [Hl0 Hlo]. simpl in *.
      split; [|done]. apply lookup_insert_app_old; [done|lia].
    + eexists. split; [by apply lookup_insert_app_eq|]. split.
      * intros key' v Hv. destruct (decide (key' = key)) as [->|Hne].
        -- rewrite lookup_insert_eq in Hv. injection Hv as <-.
           exists (S (length (heap w'))), l, rec. repeat split; try done; [lia| |by exists id].
           replace (S (length (heap w'))) with (length (heap w') + 1)%nat by lia.
           by rewrite lookup_insert_app_new.
        -- rewrite lookup_insert_ne in Hv by done.
           destruct (Hentries key' v Hv)
             as (l' & l0 & rec0 & -> & ? & ? & ? & ? & ? & x & Hx & ?).
           exists l', l0, rec0. repeat split; try done.
           ++ apply lookup_insert_app_old; [done|lia].
           ++ exists x. split; [by apply Htake|done].
      * intros j x key' Hj Hx Hkx Hch.
        destruct (decide (key' = key)) as [->|Hne]; [by rewrite lookup_insert_eq|].
        rewrite lookup_insert_ne by done.
        destruct (decide (j = k)) as [->|Hjk]; [|apply (Hdone j x key'); [lia|done..]].
        rewrite Hid in Hx. injection Hx as <-. congruence.
Qed.

Lemma lookup3_0 (h : list cell) a b c : (((h ++ [a]) ++ [b]) ++ [c]) !! length h = Some a.
Proof. rewrite <- !app_assoc. simpl. by rewrite lookup_app_r, Nat.sub_diag. Qed.

Lemma lookup3_1 (h : list cell) a b c :
  (((h ++ [a]) ++ [b]) ++ [c]) !! (length h + 1)%nat = Some b.
Proof. rewrite <- !app_assoc. simpl. by rewrite heap_new_lookup. Qed.

Lemma lookup3_2 (h : list cell) a b c :
  (((h ++ [a]) ++ [b]) ++ [c]) !! (length h + 1 + 1)%nat = Some c.
Proof.
  rewrite <- !app_assoc. simpl.
  replace (length h + 1 + 1)%nat with (length h + 2)%nat by lia.
  by rewrite heap_new_lookup.
Qed.

Lemma update_indexed_changes call b w lb fs lm m li ids lp patch :
  indexById b = true -> withMutations b = false -> arrName b ≠ mapName b ->
  heap w !! lb = Some (Obj fs) -> fs !! mapName b = Some (VRef lm) ->
  heap w !! lm = Some (Obj m) ->
  heap w !! li = Some (Arr ids) -> heap w !! lp = Some (Obj patch) ->
  Forall (has_record (heap w) m) ids ->
  (exists k, affected (heap w) m ids patch k) ->
  wp (Backend.update call b (VRef lb) (VRef li) (VRef lp))
     (fun r w' => exists lr lc m',
        r = VRef lr /\ (length (heap w) <= lr)%nat /\ (length (heap w) <= lc)%nat /\
        heap w' !! lr = Some (Obj (<[arrName b := default VUndef (fs !! arrName b)]>
                                    (<[mapName b := VRef lc]> ∅))) /\
        heap w' !! lc = Some (Obj m') /\
        (forall k, ~ affected (heap w) m ids patch k -> m' !! k = m !! k) /\
        (forall k, affected (heap w) m ids patch k ->
           exists l' l rec, m' !! k = Some (VRef l') /\ (length (heap w) <= l')%nat /\
             heap w' !! l' = Some (Obj (patch ∪ rec)) /\
             m !! k = Some (VRef l) /\ heap w !! l = Some (Obj rec)) /\
        preserved (heap w) (heap w'))
     no_error w.
Proof.
  intros Hidx Hcow Hnames Hb Hmn Hm Hli Hp Hrec (k0 & (id0 & Hid0 & Hk0) & Hch0).
  rewrite update_unfold, Hidx, Hcow.
  wp_next alloc_run.
  apply wp_bind. wp_next get_prop_obj. rewrite Hmn. cbn [default from_option Datatypes.id].
  wp_next assign_new_copy. rewrite length_app. cbn [length].
  wp_next set_prop_obj. rewrite insert_last2.
  wp_next get_prop_obj.
  wp_prim set_prop_obj. rewrite insert_last2.
  wp_next alloc_run. rewrite !length_app. cbn [length].
  set (n0 := length (heap w)).
  set (va := default VUndef (fs !! arrName b)).
  set (R := <[arrName b := va]> (<[mapName b := VRef (n0 + 1)]> ∅)).
  set (w1 := set_heap _ w).
  set (lu := (n0 + 1 + 1)%nat).
  set (side := [(n0, Obj R); ((n0 + 1)%nat, Obj m)]).
  apply wp_bind.
  eapply wp_mono;
    [apply (reduce_inv (update_progress (heap w) m patch ids lu side) li ids)| |done].
  - intros k s w' (_ & Hpres & _). by apply Hpres.
  - intros k s w' id Hinv Hid. assert (Hs := proj1 Hinv). subst s.
    apply (update_progress_step call b (heap w) lb fs lm m ids lp patch lu side k w' id);
      try done; [unfold lu, n0; lia|].
    exact (proj1 (Forall_lookup _ _) Hrec k id Hid).
  - split; [done|]. unfold w1. wp_simpl. split; [eauto 10 with heap|]. split.
    + repeat constructor; simpl; unfold lu, n0; try lia.
      * apply lookup3_0.
      * apply lookup3_1.
    + exists ∅. split; [apply lookup3_2|]. split.
      * intros key v Hv. by rewrite lookup_empty in Hv.
      * intros j id key Hj. lia.
  - intros s w2 (-> & Hpres & Hside & um & Hum & Hentries & Hdone).
    apply Forall_cons in Hside as [[HR _] Hside].
    apply Forall_cons in Hside as [[Hcopy _] _]. simpl in HR, Hcopy.
    wp_next get_prop_obj. unfold R at 1.
    rewrite lookup_insert_ne, lookup_insert_eq by done.
    cbn [default from_option Datatypes.id].
    assert (Hnew : forall key v, um !! key = Some v -> m !! key ≠ Some v).
    { intros key v Hv Hmv.
      destruct (Hentries key v Hv) as (l' & l & rec & -> & Hfresh & _ & Hmk & Hl & _).
      rewrite Hmk in Hmv. injection Hmv as ->.
      apply lookup_lt_Some in Hl. unfold lu, n0 in Hfresh. lia. }
    assert (Hentry0 : is_Some (um !! k0)).
    { apply list_elem_of_lookup in Hid0 as [j Hj].
      apply (Hdone j id0 k0); [by eapply lookup_lt_Some|done..]. }
    apply wp_bind. unfold wp at 1.
    rewrite (objectDiff_objs w2 (n0 + 1) m lu um Hcopy Hum).
    rewrite decide_False; last first.
    { intros Heq. destruct Hentry0 as [v Hv]. apply (Hnew k0 v Hv).
      rewrite <- Heq. by apply lookup_union_Some_l. }
    cbn [truthy]. set (d := filter _ um).
    wp_next get_prop_obj. unfold R at 1.
    rewrite lookup_insert_ne, lookup_insert_eq by done.
    cbn [default from_option Datatypes.id].
    apply wp_bind. eapply wp_run.
    { apply (assign_to_objs _ (n0 + 1) m (length (heap w2)) d); wp_simpl; eauto with heap. }
    wp_simpl. apply wp_ret. wp_simpl.
    assert (Hlen : (lu < length (heap w2))%nat) by (by eapply lookup_lt_Some).
    exists n0, (n0 + 1)%nat, (d ∪ m). repeat split; try lia.
    + apply lookup_insert_app_old; [done|lia].
    + apply lookup_insert_app_eq. unfold lu in Hlen. lia.
    + intros k Hnot. apply lookup_union_r. apply map_lookup_filter_None. left.
      destruct (um !! k) as [v|] eqn:Hv; [|done]. exfalso. apply Hnot.
      destruct (Hentries k v Hv) as (l' & l & rec & _ & _ & _ & Hmk & Hl & Hne & x & Hx & Hkx).
      split; [|by exists l, rec].
      exists x. split; [|done]. by rewrite take_ge in Hx by lia.
    + intros k ((x & Hx & Hkx) & Hch).
      apply list_elem_of_lookup in Hx as [j Hj].
      destruct (Hdone j x k) as [v Hv]; [by eapply lookup_lt_Some|done|done|done|].
      destruct (Hentries k v Hv) as (l' & l & rec & -> & Hfresh & Hl' & Hmk & Hl & _).
      exists l', l, rec. repeat split; try done.
      * apply lookup_union_Some_l. apply map_lookup_filter_Some. split; [done|].
        simpl. by apply Hnew.
      * unfold lu in Hfresh. lia.
      * apply lookup_insert_app_old; [done|]. unfold lu in Hfresh. lia.
    + intros l c Hl. apply lookup_insert_app_old; [by apply Hpres|].
      apply lookup_lt_Some in Hl. fold n0 in Hl. lia.
Qed.

(** C5, as amended.  When every identifier addressed has a record in the
    state, [update] with an object patch returns the state reference it was
    given when the patch changes none of the records addressed, in both
    representations and both disciplines (and in copy-on-write mode nothing
    that existed is modified).  When it changes some record of an indexed
    state in copy-on-write mode, the result is a new state object whose order
    sequence is the very array of the input state, and whose index map holds,
    under every key that is not affected, the very reference the input map
    holds; under an affected key it holds a new record, the old one merged
    with the patch. *)
Theorem update_keeps_references (call : nat -> value -> M value) (b : Backend)
    (w : world) (branch : value) li ids lp patch :
  heap w !! li = Some (Arr ids) -> heap w !! lp = Some (Obj patch) ->
  (unchanged_by b (heap w) branch ids patch ->
   exists w',
     Backend.update call b branch (VRef li) (VRef lp) w = Ok (branch, w')
     /\ (withMutations b = false -> preserved (heap w) (heap w')))
  /\ (indexById b = true -> withMutations b = false -> arrName b ≠ mapName b ->
      forall la xs lm m,
        order_sequence b (heap w) branch la xs -> index_map b (heap w) branch lm m ->
        Forall (has_record (heap w) m) ids ->
        (exists k, affected (heap w) m ids patch k) ->
        exists w' lr lm' m',
          Backend.update call b branch (VRef li) (VRef lp) w = Ok (VRef lr, w')
          /\ (length (heap w) <= lr)%nat
          /\ order_sequence b (heap w') (VRef lr) la xs
          /\ index_map b (heap w') (VRef lr) lm' m'
          /\ (forall k, ~ affected (heap w) m ids patch k -> m' !! k = m !! k)
          /\ (forall k, affected (heap w) m ids patch k ->
                exists l' l rec,
                  m' !! k = Some (VRef l') /\ (length (heap w) <= l')%nat /\
                  heap w' !! l' = Some (Obj (patch ∪ rec)) /\
                  m !! k = Some (VRef l) /\ heap w !! l = Some (Obj rec))
          /\ preserved (heap w) (heap w')).
Proof.
  intros Hli Hp. split.
  - unfold unchanged_by. destruct (indexById b) eqn:Hidx.
    + intros (lm & m & (lb & fs & -> & Hb & Hmn & Hm) & Hall).
      assert (H := update_indexed_noop call b w lb fs lm m li ids lp patch
                     Hidx Hb Hmn Hm Hli Hp Hall).
      apply wp_returns in H as (r & w' & Hrun & -> & Hpres). eauto.
    + intros (la & items & (lb & fs & -> & Hb & Han & Hla) & Hall).
      assert (H := update_flat_noop call b w lb fs la items li ids lp patch
                     Hidx Hb Han Hla Hli Hp Hall).
      apply wp_returns in H as (r & w' & Hrun & -> & Hpres). eauto.
  - intros Hidx Hcow Hnames la xs lm m (lb & fs & -> & Hb & Han & Hla)
      (lb' & fs' & [= <-] & Hb' & Hmn & Hm) Hrec Haff.
    rewrite Hb in Hb'. injection Hb' as <-.
    assert (H := update_indexed_changes call b w lb fs lm m li ids lp patch
                   Hidx Hcow Hnames Hb Hmn Hm Hli Hp Hrec Haff).
    apply wp_returns in H
      as (r & w' & Hrun & lr & lc & m' & -> & Hlr & Hlc & HR & Hm' & Hsame & Hnew & Hpres).
    exists w', lr, lc, m'. repeat split; try done.
    + eexists lr, _. repeat split; [exact HR| |by apply Hpres].
      rewrite lookup_insert_eq, Han. reflexivity.
    + eexists lr, _. repeat split; [exact HR| |exact Hm'].
      by rewrite lookup_insert_ne, lookup_insert_eq.
Qed.

Lemma update_keeps_references_witness :
  (exists w',
     Backend.update identity_call defaultOpts (VRef 2) (VRef 8) (VRef 9)
       (empty_world patch_heap) = Ok (VRef 2, w')
     /\ (withMutations defaultOpts = false -> preserved patch_heap (heap w')))
  /\ (exists w' lr lm' m',
        Backend.update identity_call defaultOpts (VRef 2) (VRef 8) (VRef 10)
          (empty_world patch_heap) = Ok (VRef lr, w')
        /\ (11 <= lr)%nat
        /\ order_sequence defaultOpts (heap w') (VRef lr) 0 [VNum 0; VNum 1]
        /\ index_map defaultOpts (heap w') (VRef lr) lm' m'
        /\ m' !! "1" = Some (VRef 4)
        /\ preserved patch_heap (heap w')).
Proof.
  assert (Hseq : order_sequence defaultOpts patch_heap (VRef 2) 0 [VNum 0; VNum 1]).
  { exists 2%nat, (<["itemsById" := VRef 1]> {["items" := VRef 0]}).
    repeat split; reflexivity. }
  assert (Hmap : index_map defaultOpts patch_heap (VRef 2) 1
                   (<["1" := VRef 4]> {["0" := VRef 3]})).
  { exists 2%nat, (<["itemsById" := VRef 1]> {["items" := VRef 0]}).
    repeat split; reflexivity. }
  split.
  - apply (proj1 (update_keeps_references identity_call defaultOpts
                    (empty_world patch_heap) (VRef 2) 8%nat [VNum 0] 9%nat
                    {["name" := VStr "A"]} eq_refl eq_refl)).
    exists 1%nat, (<["1" := VRef 4]> {["0" := VRef 3]}). split; [exact Hmap|].
    repeat constructor. exists "0", 3%nat, record_A. repeat split; reflexivity.
  - assert (Hchanged : {["name" := VStr "C"]} ∪ record_A ≠ record_A).
    { intros H. apply (f_equal (fun r : gmap string value => r !! "name")) in H.
      vm_compute in H. discriminate H. }
    destruct (proj2 (update_keeps_references identity_call defaultOpts
                       (empty_world patch_heap) (VRef 2) 8%nat [VNum 0] 10%nat
                       {["name" := VStr "C"]} eq_refl eq_refl)
                eq_refl eq_refl ltac:(discriminate)
                0%nat [VNum 0; VNum 1] 1%nat (<["1" := VRef 4]> {["0" := VRef 3]})
                Hseq Hmap)
      as (w' & lr & lm' & m' & Hrun & Hlr & Hs & Hm & Hsame & _ & Hpres).
    + repeat constructor. exists "0", 3%nat, record_A. repeat split; reflexivity.
    + exists "0". split.
      * exists (VNum 0). split; [apply list_elem_of_here|reflexivity].
      * exists 3%nat, record_A.
        split; [reflexivity|split; [reflexivity|exact Hchanged]].
    + exists w', lr, lm', m'.
      refine (conj Hrun (conj Hlr (conj Hs (conj Hm (conj _ Hpres))))).
      rewrite Hsame; [reflexivity|].
      intros ((id & Hid & Hk) & _).
      apply list_elem_of_singleton in Hid. subst id. discriminate Hk.
Defined.

(** One turn of the reduce callback on an identifier that has no record:
    the patch is merged into undefined, and the diff of undefined with a
    patch that has a property is a TypeError. *)
Lemma update_reducer_missing call b w lb fs lm m id k lp patch map :
  heap w !! lb = Some (Obj fs) -> fs !! mapName b = Some (VRef lm) ->
  heap w !! lm = Some (Obj m) ->
  key_of id = Some k -> m !! k = None -> k ∉ Object_prototype ->
  heap w !! lp = Some (Obj patch) -> patch ≠ ∅ ->
  update_reducer call b (VRef lb) (VRef lp) map id w = Throw TypeError.
Proof.
  intros Hb Hmn Hm Hk Hmk Hplain Hp Hne. unfold update_reducer.
  unfold bind at 1. rewrite (get_prop_obj w lb fs _ Hb), Hmn.
  cbn [default from_option Datatypes.id].
  unfold bind at 1. rewrite (get_index_obj w lm m id k Hm Hk (or_intror Hplain)), Hmk.
  cbn [default from_option Datatypes.id].
  unfold bind at 1. unfold Backend.mapFunction, Utils.objectDiff.
  unfold bind at 1. unfold bind at 1. rewrite (own_props_obj _ _ _ Hp).
  by rewrite bool_decide_eq_false_2.
Qed.

(** In the indexed form, an object patch that has a property cannot be
    applied to an identifier that has no record: the identifiers before it
    are patched, and then [update] raises a TypeError instead of returning a
    state. *)
Lemma update_missing_record_throws call b w lb fs lm m li pre id post lp patch k :
  indexById b = true ->
  heap w !! lb = Some (Obj fs) -> fs !! mapName b = Some (VRef lm) ->
  heap w !! lm = Some (Obj m) ->
  heap w !! li = Some (Arr (pre ++ id :: post)) -> heap w !! lp = Some (Obj patch) ->
  Forall (has_record (heap w) m) pre ->
  key_of id = Some k -> m !! k = None -> k ∉ Object_prototype -> patch ≠ ∅ ->
  Backend.update call b (VRef lb) (VRef li) (VRef lp) w = Throw TypeError.
Proof.
  intros Hidx Hb Hmn Hm Hli Hp Hrec Hk Hmk Hplain Hne.
  apply wp_throws. rewrite update_unfold, Hidx.
  set (ids := pre ++ id :: post) in *.
  assert (Hloop : forall w1 lu side,
    (length (heap w) <= lu)%nat ->
    update_progress (heap w) m patch ids lu side 0 (VRef lu) w1 ->
    wp (reduce (VRef li) (update_reducer call b (VRef lb) (VRef lp)) (VRef lu))
       (fun _ _ => False) (fun e => e = TypeError) w1).
  { intros w1 lu side Hlu Hinit.
    apply (reduce_throws (update_progress (heap w) m patch ids lu side) _ li ids _
             (length pre)).
    - intros j s w' (_ & Hpres & _). by apply Hpres.
    - intros j s w' x Hj Hinv Hx. assert (Hs := proj1 Hinv). subst s.
      apply (update_progress_step call b (heap w) lb fs lm m ids lp patch lu side j w' x);
        try done.
      apply (proj1 (Forall_lookup _ _) Hrec j x).
      unfold ids in Hx. by rewrite lookup_app_l in Hx.
    - intros s w' x (-> & Hpres & _) Hx.
      unfold ids in Hx. rewrite list_lookup_middle in Hx by done. injection Hx as <-.
      unfold wp.
      by rewrite (update_reducer_missing call b w' lb fs lm m id k lp patch (VRef lu))
        by eauto.
    - unfold ids. rewrite length_app. simpl. lia.
    - exact Hinit. }
  destruct (withMutations b).
  - apply wp_bind, wp_ret. apply wp_bind, wp_ret.
    wp_next alloc_run.
    apply wp_bind. eapply wp_mono; [apply (Hloop _ (length (heap w)) [])| |done].
    + lia.
    + split; [done|]. wp_simpl. split; [eauto with heap|]. split; [constructor|].
      exists ∅. split; [apply heap_alloc_new|]. split.
      * intros key v Hv. by rewrite lookup_empty in Hv.
      * intros j x key Hj. lia.
    + by intros ? ? [].
  - wp_next alloc_run.
    apply wp_bind. wp_next get_prop_obj. rewrite Hmn. cbn [default from_option Datatypes.id].
    wp_next assign_new_copy. rewrite length_app. cbn [length].
    wp_next set_prop_obj. rewrite insert_last2.
    wp_next get_prop_obj.
    wp_prim set_prop_obj. rewrite insert_last2.
    wp_next alloc_run. rewrite !length_app. cbn [length].
    apply wp_bind.
    eapply wp_mono; [apply (Hloop _ (length (heap w) + 1 + 1)%nat [])| |done].
    + lia.
    + split; [done|]. wp_simpl. split; [eauto 10 with heap|]. split; [constructor|].
      exists ∅. split; [apply lookup3_2|]. split.
      * intros key v Hv. by rewrite lookup_empty in Hv.
      * intros j x key Hj. lia.
    + by intros ? ? [].
Qed.

(** C5, as stated, fails: 7 addresses no record of the two-book store, so
    the patch [{name: "C"}] changes no record, and [update] does not return
    the state it was given: it raises a TypeError. *)
Lemma update_missing_record_counterexample :
  index_map defaultOpts missing_id_heap (VRef 2) 1 (<["1" := VRef 4]> {["0" := VRef 3]})
  ∧ (forall k, ¬ affected missing_id_heap (<["1" := VRef 4]> {["0" := VRef 3]})
                   [VNum 7] {["name" := VStr "C"]} k)
  ∧ ¬ update_returns_state identity_call defaultOpts (VRef 2) (VRef 8) (VRef 9)
        (empty_world missing_id_heap)
  ∧ Backend.update identity_call defaultOpts (VRef 2) (VRef 8) (VRef 9)
      (empty_world missing_id_heap) = Throw TypeError.
Proof.
  split; [|split; [|split]].
  - exists 2%nat, (<["itemsById" := VRef 1]> {["items" := VRef 0]}).
    repeat split; reflexivity.
  - intros k ((id & Hid & Hk) & l & rec & Hm & _).
    apply list_elem_of_singleton in Hid. subst id.
    injection Hk as <-. vm_compute in Hm. discriminate Hm.
  - unfold update_returns_state. vm_compute. tauto.
  - vm_compute. reflexivity.
Qed.
